(** * The missing-dependency scanner and the stat cache of ninja

    A shallow embedding of [src/missing_deps.cc] (the scanner, its
    reachability memo and its depfile loader) and of the stat cache
    ([StatCache::GetFile], [StatCache::SpellcheckFile]), followed by the
    properties proved about them.

    Pointers are identifiers: a [Node*], an [Edge*], a [Rule*] or a
    [FileStat*] is a natural number, and the object behind it is read
    through the fields of a [Graph] (or of the cache).  A null pointer is
    [None]. *)

From Stdlib Require Import ZArith Lia Ascii Wellfounded.
From stdpp Require Import base option list gmap sets strings pretty sorting.

(** * Part I: the model *)

(** ** Results of code that may diverge or fault *)

Inductive result (A : Type) : Type :=
  | Ok (a : A)
  | OutOfFuel
  | NullDeref.
Arguments Ok {A} a.
Arguments OutOfFuel {A}.
Arguments NullDeref {A}.

Global Instance result_bind : MBind result := λ A B f r,
  match r with
  | Ok a => f a
  | OutOfFuel => OutOfFuel
  | NullDeref => NullDeref
  end.

(** ** The build graph (graph.h, state.h: collaborators of the scanner) *)

Abbreviation Node := nat (only parsing).
Abbreviation Edge := nat (only parsing).
Abbreviation Rule := nat (only parsing).

(** What loading the depfile of an edge yields: the edge names no depfile,
    reading or parsing it fails with a message, or the parser hands over the
    raw input paths ([depfile.ins_]). *)
Inductive DepfileResult :=
  | NoDepfile
  | DepfileError (err : string)
  | DepfileIns (ins : list string).

Record Graph := {
  path : Node → string;                  (* node->path() *)
  in_edge : Node → option Edge;          (* node->in_edge(), NULL for a source *)
  inputs_ : Edge → list Node;            (* edge->inputs_ *)
  rule : Edge → Rule;                    (* &edge->rule() *)
  name : Rule → string;                  (* rule.name() *)
  GetBinding : Edge → string → string;   (* edge->GetBinding(key) *)
  GetNode : string → Node;               (* state_->GetNode(path, slash_bits) *)
  CanonicalizePath : string → string;    (* util.h *)
  depfile : Edge → DepfileResult         (* the disk, read through the parser *)
}.

(** ** The reachability memo *)

Abbreviation AdjacencyMap := (gmap Edge (gmap Edge bool)) (only parsing).

(** [std::unordered_map::insert]: an existing key keeps its value. *)
Definition map_insert_new {V} (k : Edge) (v : V) (m : gmap Edge V) : gmap Edge V :=
  match m !! k with
  | Some _ => m
  | None => <[k := v]> m
  end.

(** The loop of [PathExistsBetween] over [to->inputs_]; [rec] is the
    recursive call [PathExistsBetween(from, e)]. *)
Fixpoint scan_inputs (g : Graph)
    (rec : Edge → AdjacencyMap → result (bool * AdjacencyMap))
    (from : Edge) (ins : list Node) (m : AdjacencyMap)
    : result (bool * AdjacencyMap) :=
  match ins with
  | [] => Ok (false, m)
  | input :: rest =>
    match in_edge g input with
    | None => scan_inputs g rec from rest m
    | Some e =>
      if decide (e = from) then Ok (true, m)
      else
        '(r, m') ← rec e m;
        if (r : bool) then Ok (true, m') else scan_inputs g rec from rest m'
    end
  end.

(** [MissingDependencyScanner::PathExistsBetween], the memo
    [adjacency_map_] passed in and out.  The iterator [it] designates the
    entry of [from], which the recursive calls (all with the same [from])
    update in place; hence the final [alter]. *)
Fixpoint PathExistsBetween (g : Graph) (fuel : nat) (from to : Edge)
    (m : AdjacencyMap) : result (bool * AdjacencyMap) :=
  match fuel with
  | 0 => OutOfFuel
  | S fuel' =>
    let search (m1 : AdjacencyMap) :=
      '(found, m2) ← scan_inputs g (PathExistsBetween g fuel' from) from (inputs_ g to) m1;
      Ok (found, alter (map_insert_new to found) from m2) in
    match m !! from with
    | Some inner =>
      match inner !! to with
      | Some b => Ok (b, m)
      | None => search m
      end
    | None => search (<[from := ∅]> m)
    end
  end.

(** *** The definition of the specification *)

(** reachable(from, to): some direct input Node of [to] has a producing
    Edge [e] such that [e = from], or reachable(from, e). *)
Inductive reachable (g : Graph) (from : Edge) : Edge → Prop :=
  | reachable_direct to input :
      input ∈ inputs_ g to → in_edge g input = Some from → reachable g from to
  | reachable_via to input e :
      input ∈ inputs_ g to → in_edge g input = Some e →
      reachable g from e → reachable g from to.

Definition has_reaching_input (g : Graph) (from to : Edge) : Prop :=
  ∃ input e, input ∈ inputs_ g to ∧ in_edge g input = Some e ∧
             (e = from ∨ reachable g from e).

(** The same definition run afresh, without any memo. *)
Fixpoint any_input (g : Graph) (rec : Edge → result bool) (from : Edge)
    (ins : list Node) : result bool :=
  match ins with
  | [] => Ok false
  | input :: rest =>
    match in_edge g input with
    | None => any_input g rec from rest
    | Some e =>
      if decide (e = from) then Ok true
      else
        r ← rec e;
        if (r : bool) then Ok true else any_input g rec from rest
    end
  end.

Fixpoint reachable_fresh (g : Graph) (fuel : nat) (from to : Edge) : result bool :=
  match fuel with
  | 0 => OutOfFuel
  | S fuel' => any_input g (reachable_fresh g fuel' from) from (inputs_ g to)
  end.

(** [e'] feeds [e]: an explicit input of [e] is produced by [e']. *)
Definition feeds (g : Graph) (e' e : Edge) : Prop :=
  ∃ input, input ∈ inputs_ g e ∧ in_edge g input = Some e'.

(** The explicit graph has no cycle (no infinite chain of producers). *)
Definition acyclic (g : Graph) : Prop := well_founded (feeds g).

(** Every answer stored in the memo is the answer of the definition. *)
Definition memo_ok (g : Graph) (m : AdjacencyMap) : Prop :=
  ∀ from to inner b,
    m !! from = Some inner → inner !! to = Some b →
    (b = true ↔ reachable g from to).

(** With [N] units of fuel or more, the search into [to] returns. *)
Definition returns_from (g : Graph) (N : nat) (to : Edge) : Prop :=
  ∀ fuel, N ≤ fuel → ∀ from m, ∃ r, PathExistsBetween g fuel from to m = Ok r.

(** ** The scanner *)

(** One call [delegate_->OnMissingDep(node, path, generator)]. *)
Record MissingDep := OnMissingDep {
  md_node : Node;
  md_path : string;
  md_generator : Rule
}.

Global Instance MissingDep_eq_dec : EqDecision MissingDep.
Proof. solve_decision. Defined.

Abbreviation DepsLog := (gmap Node (list Node)) (only parsing).

(** Modelled from the spec: [DepsLog::GetDeps] (deps_log.cc is not among
    the sources), a read-only lookup of the list recorded for a node
    ([deps->nodes] with [deps->node_count]), NULL when none is recorded. *)
Definition GetDeps (log : DepsLog) (node : Node) : option (list Node) := log !! node.

(** The fields of [MissingDependencyScanner], with the object behind
    [deps_log_], the trace of the calls made to [delegate_], and a trace
    [classified] (not a field of the class) of the nodes for which the
    dependency classification of [ProcessNode] has run. *)
Record Scanner := {
  deps_log_ : DepsLog;
  seen_ : gset Node;
  nodes_missing_deps_ : gset Node;
  generated_nodes_ : gset Node;
  generator_rules_ : gset Rule;
  missing_dep_path_count_ : Z;
  adjacency_map_ : AdjacencyMap;
  delegate_calls : list MissingDep;
  classified : list Node
}.

(** The scanner as its constructor leaves it. *)
Definition new_scanner (log : DepsLog) : Scanner := {|
  deps_log_ := log;
  seen_ := ∅;
  nodes_missing_deps_ := ∅;
  generated_nodes_ := ∅;
  generator_rules_ := ∅;
  missing_dep_path_count_ := 0;
  adjacency_map_ := ∅;
  delegate_calls := [];
  classified := []
|}.

Definition set_deps_log (log : DepsLog) (s : Scanner) : Scanner := {|
  deps_log_ := log;
  seen_ := seen_ s;
  nodes_missing_deps_ := nodes_missing_deps_ s;
  generated_nodes_ := generated_nodes_ s;
  generator_rules_ := generator_rules_ s;
  missing_dep_path_count_ := missing_dep_path_count_ s;
  adjacency_map_ := adjacency_map_ s;
  delegate_calls := delegate_calls s;
  classified := classified s
|}.

Definition insert_seen (node : Node) (s : Scanner) : Scanner := {|
  deps_log_ := deps_log_ s;
  seen_ := {[node]} ∪ seen_ s;
  nodes_missing_deps_ := nodes_missing_deps_ s;
  generated_nodes_ := generated_nodes_ s;
  generator_rules_ := generator_rules_ s;
  missing_dep_path_count_ := missing_dep_path_count_ s;
  adjacency_map_ := adjacency_map_ s;
  delegate_calls := delegate_calls s;
  classified := classified s
|}.

Definition set_adjacency_map (m : AdjacencyMap) (s : Scanner) : Scanner := {|
  deps_log_ := deps_log_ s;
  seen_ := seen_ s;
  nodes_missing_deps_ := nodes_missing_deps_ s;
  generated_nodes_ := generated_nodes_ s;
  generator_rules_ := generator_rules_ s;
  missing_dep_path_count_ := missing_dep_path_count_ s;
  adjacency_map_ := m;
  delegate_calls := delegate_calls s;
  classified := classified s
|}.

Definition note_classified (node : Node) (s : Scanner) : Scanner := {|
  deps_log_ := deps_log_ s;
  seen_ := seen_ s;
  nodes_missing_deps_ := nodes_missing_deps_ s;
  generated_nodes_ := generated_nodes_ s;
  generator_rules_ := generator_rules_ s;
  missing_dep_path_count_ := missing_dep_path_count_ s;
  adjacency_map_ := adjacency_map_ s;
  delegate_calls := delegate_calls s;
  classified := classified s ++ [node]
|}.

(** Lines 138-141: the two inserts into the session sets and the call of
    the delegate, for the dependency [dep] generated by [generator]. *)
Definition record_missing (node dep : Node) (dep_path : string) (generator : Rule)
    (s : Scanner) : Scanner := {|
  deps_log_ := deps_log_ s;
  seen_ := seen_ s;
  nodes_missing_deps_ := nodes_missing_deps_ s;
  generated_nodes_ := {[dep]} ∪ generated_nodes_ s;
  generator_rules_ := {[generator]} ∪ generator_rules_ s;
  missing_dep_path_count_ := missing_dep_path_count_ s;
  adjacency_map_ := adjacency_map_ s;
  delegate_calls := delegate_calls s ++ [OnMissingDep node dep_path generator];
  classified := classified s
|}.

(** A C++ [int] read back from a wider value: two's complement on 32 bits. *)
Definition int_of_Z (z : Z) : Z := ((z + 2 ^ 31) `mod` 2 ^ 32 - 2 ^ 31)%Z.

(** Lines 145-146: [missing_dep_path_count_ += n] (the sum is formed in
    [size_t] and stored back into the [int]) and the insert of [node]. *)
Definition count_and_flag (node : Node) (n : nat) (s : Scanner) : Scanner := {|
  deps_log_ := deps_log_ s;
  seen_ := seen_ s;
  nodes_missing_deps_ := {[node]} ∪ nodes_missing_deps_ s;
  generated_nodes_ := generated_nodes_ s;
  generator_rules_ := generator_rules_ s;
  missing_dep_path_count_ := int_of_Z (missing_dep_path_count_ s + Z.of_nat n);
  adjacency_map_ := adjacency_map_ s;
  delegate_calls := delegate_calls s;
  classified := classified s
|}.

(** *** ProcessNodeDeps *)

(** The first loop (lines 111-125): [None] is the early [return] on a
    dependency named "build.ninja". *)
Fixpoint collect_deplog_edges (g : Graph) (dep_nodes : list Node)
    (deplog_edges : gset Edge) : option (gset Edge) :=
  match dep_nodes with
  | [] => Some deplog_edges
  | deplog_node :: rest =>
    if decide (path g deplog_node = "build.ninja"%string) then None
    else
      collect_deplog_edges g rest
        match in_edge g deplog_node with
        | Some deplog_edge => {[deplog_edge]} ∪ deplog_edges
        | None => deplog_edges
        end
  end.

(** A [std::set<Edge*>] is walked in increasing order of its pointers. *)
Definition set_order (s : gset Edge) : list Edge := merge_sort (≤) (elements s).

(** The second loop (lines 126-131).  [edge] is [node->in_edge()]; with a
    NULL [edge] the call [PathExistsBetween(de, edge)] reads [to->inputs_]
    through a null pointer. *)
Fixpoint find_missing_deps (g : Graph) (fuel : nat) (edge : option Edge)
    (deplog_edges : list Edge) (m : AdjacencyMap)
    : result (list Edge * AdjacencyMap) :=
  match deplog_edges with
  | [] => Ok ([], m)
  | de :: rest =>
    match edge with
    | None => NullDeref
    | Some to =>
      '(found, m1) ← PathExistsBetween g fuel de to m;
      '(missing_deps, m2) ← find_missing_deps g fuel edge rest m1;
      Ok (if (found : bool) then missing_deps else de :: missing_deps, m2)
    end
  end.

(** The body of the inner loop of lines 135-144. *)
Definition report_dep (g : Graph) (node : Node) (item : Edge)
    (acc : gset string * Scanner) (dep : Node) : gset string * Scanner :=
  if decide (in_edge g dep = Some item) then
    ({[name g (rule g item)]} ∪ acc.1,
     record_missing node dep (path g dep) (rule g item) acc.2)
  else acc.

(** Lines 135-144: for each missing edge, every entry of the dependency
    array it produces.  The first component is [missing_deps_rule_names]. *)
Definition report_missing (g : Graph) (node : Node) (dep_nodes : list Node)
    (missing_deps : list Edge) (s : Scanner) : gset string * Scanner :=
  foldl (λ acc item, foldl (report_dep g node item) acc dep_nodes) (∅, s) missing_deps.

(** [MissingDependencyScanner::ProcessNodeDeps]; the array [dep_nodes]
    with its length [dep_nodes_count] is a list. *)
Definition ProcessNodeDeps (g : Graph) (fuel : nat) (node : Node)
    (dep_nodes : list Node) (s : Scanner) : result Scanner :=
  let edge := in_edge g node in
  match collect_deplog_edges g dep_nodes ∅ with
  | None => Ok s
  | Some deplog_edges =>
    '(missing_deps, m) ←
      find_missing_deps g fuel edge (set_order deplog_edges) (adjacency_map_ s);
    let s1 := set_adjacency_map m s in
    match missing_deps with
    | [] => Ok s1
    | _ :: _ =>
      let '(missing_deps_rule_names, s2) :=
        report_missing g node dep_nodes missing_deps s1 in
      Ok (count_and_flag node (size missing_deps_rule_names) s2)
    end
  end.

(** *** Notions used to state the properties of [ProcessNodeDeps] *)

(** [e] is a missing-dependency edge for a consumer produced by [edge]: it
    produces an entry of the dependency array and no explicit path leads
    from it to [edge]. *)
Definition missing_edge (g : Graph) (edge : Edge) (dep_nodes : list Node)
    (e : Edge) : Prop :=
  (∃ d, d ∈ dep_nodes ∧ in_edge g d = Some e) ∧ ¬ reachable g e edge.

(** The entries of the dependency array reported for the edges of
    [missing_deps], each with its producing edge, in the order of the
    calls. *)
Definition reported (g : Graph) (dep_nodes : list Node) (missing_deps : list Edge)
    : list (Node * Edge) :=
  missing_deps ≫= λ item,
    (λ d, (d, item)) <$> filter (λ d, in_edge g d = Some item) dep_nodes.

(** The call of the delegate for one reported entry, and the whole effect
    of lines 138-141 for it. *)
Definition call_for (g : Graph) (node : Node) (p : Node * Edge) : MissingDep :=
  OnMissingDep node (path g p.1) (rule g p.2).

Definition report_pair (g : Graph) (node : Node) (acc : gset string * Scanner)
    (p : Node * Edge) : gset string * Scanner :=
  ({[name g (rule g p.2)]} ∪ acc.1,
   record_missing node p.1 (path g p.1) (rule g p.2) acc.2).


(** What a scan has found so far: the calls made to the delegate and the
    four aggregates of the session. *)
Definition findings (s : Scanner)
    : list MissingDep * gset Node * gset Node * gset Rule * Z :=
  (delegate_calls s, nodes_missing_deps_ s, generated_nodes_ s,
   generator_rules_ s, missing_dep_path_count_ s).

(** The classification has run at most once per node, and only for visited
    nodes. *)
Definition classified_once (s : Scanner) : Prop :=
  NoDup (classified s) ∧ ∀ n, n ∈ classified s → n ∈ seen_ s.

(** What a visit may change between [s] and [s']: the log is the same, the
    visited set has grown, and the nodes classified in between are distinct
    nodes that were not visited before. *)
Definition visit_step (s s' : Scanner) : Prop :=
  deps_log_ s' = deps_log_ s ∧ seen_ s ⊆ seen_ s' ∧
  ∃ new, classified s' = classified s ++ new ∧ NoDup new ∧
         ∀ n, n ∈ new → (n ∉ seen_ s) ∧ (n ∈ seen_ s').

(** *** The depfile loader *)

(** [NodeStoringImplicitDepLoader]: the log its base class points to (the
    one of the scanner) and the vector behind [dep_nodes_output_]. *)
Record NodeStoringImplicitDepLoader := {
  loader_deps_log : DepsLog;
  dep_nodes_output_ : list Node
}.

(** [NodeStoringImplicitDepLoader::ProcessDepfileDeps]: each item is
    canonicalized, resolved to its node and pushed onto the output. *)
Fixpoint ProcessDepfileDeps (g : Graph) (loader : NodeStoringImplicitDepLoader)
    (edge : Edge) (depfile_ins : list string)
    : bool * NodeStoringImplicitDepLoader :=
  match depfile_ins with
  | [] => (true, loader)
  | item :: rest =>
    let node := GetNode g (CanonicalizePath g item) in
    ProcessDepfileDeps g
      {| loader_deps_log := loader_deps_log loader;
         dep_nodes_output_ := dep_nodes_output_ loader ++ [node] |}
      edge rest
  end.

(** Modelled from the spec: [ImplicitDepLoader::LoadDeps] of the base class
    (graph.cc is not among the sources), for an edge without "deps" binding.
    The adapter attempts to parse the depfile of the edge; a failure is
    reported by the returned flag (and a local error string) and leaves the
    output untouched; a parsed depfile is handed to [ProcessDepfileDeps]. *)
Definition LoadDeps (g : Graph) (loader : NodeStoringImplicitDepLoader)
    (edge : Edge) : bool * NodeStoringImplicitDepLoader :=
  match depfile g edge with
  | NoDepfile => (true, loader)
  | DepfileError _ => (false, loader)
  | DepfileIns ins => ProcessDepfileDeps g loader edge ins
  end.

(** *** ProcessNode *)

(** Lines 86-88. *)
Fixpoint process_inputs (rec : option Node → Scanner → result Scanner)
    (ins : list Node) (s : Scanner) : result Scanner :=
  match ins with
  | [] => Ok s
  | i :: rest => s1 ← rec (Some i) s; process_inputs rec rest s1
  end.

(** Lines 90-104: the dependency classification of [node]. *)
Definition classify_deps (g : Graph) (fuel : nat) (node : Node) (edge : Edge)
    (s0 : Scanner) : result Scanner :=
  let s := note_classified node s0 in
  let deps_type := GetBinding g edge "deps" in
  if decide (deps_type ≠ ""%string) then
    match GetDeps (deps_log_ s) node with
    | Some deps => ProcessNodeDeps g fuel node deps s
    | None => Ok s
    end
  else
    let dep_loader := {| loader_deps_log := deps_log_ s; dep_nodes_output_ := [] |} in
    let '(_, dep_loader) := LoadDeps g dep_loader edge in
    let s' := set_deps_log (loader_deps_log dep_loader) s in
    match dep_nodes_output_ dep_loader with
    | [] => Ok s'
    | depfile_deps => ProcessNodeDeps g fuel node depfile_deps s'
    end.

(** [MissingDependencyScanner::ProcessNode]. *)
Fixpoint ProcessNode (g : Graph) (fuel : nat) (node : option Node) (s : Scanner)
    : result Scanner :=
  match fuel with
  | 0 => OutOfFuel
  | S fuel' =>
    match node with
    | None => Ok s
    | Some n =>
      match in_edge g n with
      | None => Ok s
      | Some edge =>
        if decide (n ∈ seen_ s) then Ok s
        else
          s1 ← process_inputs (ProcessNode g fuel') (inputs_ g edge) (insert_seen n s);
          classify_deps g fuel' n edge s1
      end
    end
  end.

(** The driver: [ProcessNode] on each root in turn, in one session. *)
Fixpoint scan_roots (g : Graph) (fuel : nat) (roots : list (option Node))
    (s : Scanner) : result Scanner :=
  match roots with
  | [] => Ok s
  | root :: rest => s1 ← ProcessNode g fuel root s; scan_roots g fuel rest s1
  end.

(** *** PrintStats *)

(** The character written for "\n". *)
Definition endl : string := String "010"%char "".

(** Modelled from the spec: [HadMissingDeps] (missing_deps.h is not among
    the sources) is true iff the nodes-with-gaps set is non-empty. *)
Definition HadMissingDeps (s : Scanner) : bool :=
  negb (bool_decide (nodes_missing_deps_ s = ∅)).

(** [MissingDependencyScanner::PrintStats]: the text sent to [std::cout]. *)
Definition PrintStats (s : Scanner) : string :=
  ("Processed " +:+ pretty (size (seen_ s)) +:+ " nodes." +:+ endl +:+
   if HadMissingDeps s then
     "Error: There are " +:+ pretty (missing_dep_path_count_ s) +:+
     " missing dependency paths." +:+ endl +:+
     pretty (size (nodes_missing_deps_ s)) +:+
     " targets had depfile dependencies on " +:+
     pretty (size (generated_nodes_ s)) +:+ " distinct generated inputs " +:+
     "(from " +:+ pretty (size (generator_rules_ s)) +:+ " rules) " +:+
     " without a non-depfile dep path to the generator." +:+ endl +:+
     "There might be build flakiness if any of the targets listed " +:+
     "above are built alone, or not late enough, in a clean output " +:+
     "directory." +:+ endl
   else
     "No missing dependencies on generated files found." +:+ endl)%string.

(** ** The stat cache *)

Record FileStat := {
  path_ : string;
  mtime_ : Z;
  node_ : option Node
}.

(** The cache: the [FileStat] objects allocated so far (a [FileStat*] is an
    index into [heap]) and the table [paths_].  The keys of the table are
    [const char*] that are hashed and compared as C strings. *)
Record StatCache := {
  heap : list FileStat;
  paths_ : gmap string nat
}.

(** [s.c_str()] read as a C string: the characters before the first NUL. *)
Fixpoint c_str (s : string) : string :=
  match s with
  | EmptyString => EmptyString
  | String a s' => if decide (a = "000"%char) then EmptyString else String a (c_str s')
  end.

(** The same notion without the code: [k] is the C string of [s] when [k]
    has no NUL and [s] is [k], or [k] followed by a NUL and anything. *)
Definition is_c_string_of (k s : string) : Prop :=
  (∀ p q, k ≠ (p +:+ String "000"%char q)%string) ∧
  (s = k ∨ ∃ rest, s = (k +:+ String "000"%char rest)%string).

Section get_file.

(** The constructor [FileStat(path)], declared in a header that is not
    among the sources. *)
Variable new_FileStat : string → FileStat.

(** [StatCache::GetFile]: the lookup is by [path.c_str()], the insertion by
    [file->path_.c_str()]. *)
Definition GetFile (c : StatCache) (path : string) : nat * StatCache :=
  match paths_ c !! c_str path with
  | Some file => (file, c)
  | None =>
    let file_object := new_FileStat path in
    let file := length (heap c) in
    (file, {| heap := heap c ++ [file_object];
              paths_ := <[c_str (path_ file_object) := file]> (paths_ c) |})
  end.

End get_file.

(** [file->node_], NULL also behind a pointer that designates no object. *)
Definition file_node (c : StatCache) (file : nat) : option Node :=
  heap c !! file ≫= node_.

Definition kAllowReplacements : bool := true.
Definition kMaxValidEditDistance : Z := 3.

Section spellcheck.

(** [EditDistance(s1, s2, allow_replacements, max_edit_distance)] of
    edit_distance.h, which is not among the sources. *)
Variable EditDistance : string → string → bool → Z → Z.

(** The distance the loop computes for a cached key. *)
Definition distance_to (path key : string) : Z :=
  EditDistance key path kAllowReplacements kMaxValidEditDistance.

(** The body of the loop of [SpellcheckFile]; the accumulator is
    ([min_distance], [result]). *)
Definition spellcheck_step (c : StatCache) (path : string)
    (acc : Z * option nat) (i : string * nat) : Z * option nat :=
  let distance := distance_to path i.1 in
  if bool_decide (distance < acc.1)%Z && bool_decide (is_Some (file_node c i.2))
  then (distance, Some i.2)
  else acc.

(** [StatCache::SpellcheckFile]; the table is walked in the order of
    [map_to_list]. *)
Definition SpellcheckFile (c : StatCache) (path : string) : option nat :=
  (foldl (spellcheck_step c path) ((kMaxValidEditDistance + 1)%Z, None)
         (map_to_list (paths_ c))).2.

End spellcheck.

(** ** Concrete graphs *)

Module Scenario.

(** The real-gap scenario: Edge A outputs a.h; Edge B inputs a.h and
    outputs b.o; Edge C (inputs c.c, outputs c.out) has a depfile that
    records b.o, and no explicit path to B. *)
Definition a_h : Node := 0.
Definition b_o : Node := 1.
Definition c_out : Node := 2.
Definition c_c : Node := 3.
Definition build_ninja : Node := 4.
Definition edge_A : Edge := 0.
Definition edge_B : Edge := 1.
Definition edge_C : Edge := 2.

Definition gap_graph : Graph := {|
  path n :=
    match n with
    | 0 => "a.h" | 1 => "b.o" | 2 => "c.out" | 3 => "c.c" | 4 => "build.ninja"
    | _ => ""
    end%string;
  in_edge n :=
    match n with 0 => Some 0 | 1 => Some 1 | 2 => Some 2 | _ => None end;
  inputs_ e := match e with 1 => [0] | 2 => [3] | _ => [] end;
  rule e := match e with 0 => 0 | 1 => 1 | _ => 2 end;
  name r := match r with 0 => "gen" | 1 => "cc" | _ => "link" end%string;
  GetBinding e key := ""%string;
  GetNode p :=
    if decide (p = "a.h"%string) then 0
    else if decide (p = "b.o"%string) then 1
    else if decide (p = "c.out"%string) then 2
    else if decide (p = "c.c"%string) then 3
    else if decide (p = "build.ninja"%string) then 4
    else 5;
  CanonicalizePath p := p;
  depfile e := match e with 2 => DepfileIns ["b.o"%string] | _ => NoDepfile end
|}.

(** Two generators that share one rule: edges 0 and 1 (rule "gen") output
    x.h and y.h; edge 2 outputs out and the log records both headers for
    it. *)
Definition shared_rule_graph : Graph := {|
  path n := match n with 0 => "x.h" | 1 => "y.h" | 2 => "out" | _ => "" end%string;
  in_edge n :=
    match n with 0 => Some 0 | 1 => Some 1 | 2 => Some 2 | _ => None end;
  inputs_ e := [];
  rule e := match e with 0 => 0 | 1 => 0 | _ => 1 end;
  name r := match r with 0 => "gen" | _ => "cc" end%string;
  GetBinding e key :=
    match e with 2 => if decide (key = "deps"%string) then "gcc" else "" | _ => "" end%string;
  GetNode p := 3;
  CanonicalizePath p := p;
  depfile e := NoDepfile
|}.

Definition shared_rule_log : gmap nat (list nat) := {[ 2 := [0; 1] ]}.

(** Plain edit distance (insertions, deletions, replacements), capped the
    way the optional bound of [EditDistance] caps it. *)
Fixpoint lev (s : string) : string → nat :=
  fix lev_s (t : string) : nat :=
    match s, t with
    | EmptyString, _ => String.length t
    | _, EmptyString => String.length s
    | String a s', String b t' =>
      if decide (a = b) then lev s' t'
      else S (lev s' t `min` (lev_s t' `min` lev s' t'))
    end.

Definition edit_distance (s1 s2 : string) (allow_replacements : bool)
    (max_edit_distance : Z) : Z :=
  let d := Z.of_nat (lev s1 s2) in
  if bool_decide (max_edit_distance ≠ 0 ∧ max_edit_distance < d)%Z
  then (max_edit_distance + 1)%Z else d.

(** A constructor for the examples: it stores the path and leaves the
    rest unset. *)
Definition FileStat_with_path (path : string) : FileStat :=
  {| path_ := path; mtime_ := -1; node_ := None |}.

(** The path "a", a NUL, "b". *)
Definition a_NUL_b : string := String "a" (String "000" (String "b" EmptyString)).

(** A cache with three files, two of them with a node. *)
Definition small_cache : StatCache := {|
  heap := [ {| path_ := "main.cc"; mtime_ := -1; node_ := Some 0 |};
            {| path_ := "main.h"; mtime_ := -1; node_ := None |};
            {| path_ := "util.cc"; mtime_ := -1; node_ := Some 1 |} ];
  paths_ := {[ "main.cc"%string := 0; "main.h"%string := 1; "util.cc"%string := 2 ]}
|}.

End Scenario.

(** ** Further notions: the memo and a session as a whole *)

(** The memo [m'] holds every answer of [m], unchanged. *)
Definition memo_extends (m m' : AdjacencyMap) : Prop :=
  ∀ from inner, m !! from = Some inner →
    ∃ inner', m' !! from = Some inner' ∧ inner ⊆ inner'.

(** Nothing found so far is taken back: the calls of [s] open the trace of
    [s'] and the three sets have grown. *)
Definition findings_grow (s s' : Scanner) : Prop :=
  delegate_calls s `prefix_of` delegate_calls s' ∧
  nodes_missing_deps_ s ⊆ nodes_missing_deps_ s' ∧
  generated_nodes_ s ⊆ generated_nodes_ s' ∧
  generator_rules_ s ⊆ generator_rules_ s'.

(** The sets of the session are those of the calls made to the delegate:
    the flagged nodes are the consumers of the calls, the generator rules
    are their rules, and the paths of the generated inputs are their dependency paths. *)
Definition aggregates_match (g : Graph) (s : Scanner) : Prop :=
  nodes_missing_deps_ s = list_to_set (md_node <$> delegate_calls s) ∧
  generator_rules_ s = list_to_set (md_generator <$> delegate_calls s) ∧
  (∀ p, p ∈ md_path <$> delegate_calls s ↔
        ∃ d, d ∈ generated_nodes_ s ∧ path g d = p).


(** [i] is an explicit input of the producing edge of [n] and is itself
    produced by an edge. *)
Definition generated_input (g : Graph) (n i : Node) : Prop :=
  ∃ edge, in_edge g n = Some edge ∧ i ∈ inputs_ g edge ∧ is_Some (in_edge g i).

(** Every visited node outside [pending] (the nodes whose visit is under
    way) has a producing edge, has been classified, and has all its
    generated inputs visited. *)
Definition visit_closed (g : Graph) (pending : gset Node) (s : Scanner) : Prop :=
  ∀ n, n ∈ seen_ s → n ∉ pending →
    is_Some (in_edge g n) ∧ n ∈ classified s ∧
    ∀ i, generated_input g n i → i ∈ seen_ s.


(** ** Further notions: the stat cache *)

(** Every pointer of the table designates an object, and the key is the C
    string of the path that object carries. *)
Definition cache_wf (c : StatCache) : Prop :=
  ∀ key file, paths_ c !! key = Some file →
    ∃ fs, heap c !! file = Some fs ∧ is_c_string_of key (path_ fs).

(** The constructor keeps the C string of the path it is given. *)
Definition keeps_c_string (new_FileStat : string → FileStat) : Prop :=
  ∀ p k, is_c_string_of k p → is_c_string_of k (path_ (new_FileStat p)).

Definition empty_cache : StatCache := {| heap := []; paths_ := ∅ |}.

(** The cache after [GetFile] has been called for each path in turn. *)
Definition cache_of (new_FileStat : string → FileStat) (paths : list string)
    : StatCache :=
  foldl (λ c p, (GetFile new_FileStat c p).2) empty_cache paths.

(** [file->mtime_ = -1]. *)
Definition reset_mtime (fs : FileStat) : FileStat :=
  {| path_ := path_ fs; mtime_ := -1; node_ := node_ fs |}.

(** The body of the loop of [StatCache::Invalidate] for one entry of the
    table: [i->second->mtime_ = -1; i->second->node_->dirty_ = false].
    The state is the [FileStat] objects and the flags [dirty_] of the [Node]
    objects, by node pointer.  A pointer that designates no object, or a
    null [node_], makes the second statement dereference it. *)
Definition invalidate_entry (acc : list FileStat * gmap nat bool) (i : string * nat)
    : result (list FileStat * gmap nat bool) :=
  match acc.1 !! i.2 with
  | None => NullDeref
  | Some fs =>
    match node_ fs with
    | None => NullDeref
    | Some n => Ok (<[i.2 := reset_mtime fs]> acc.1, <[n := false]> acc.2)
    end
  end.

Fixpoint invalidate_entries (entries : list (string * nat))
    (acc : list FileStat * gmap nat bool) : result (list FileStat * gmap nat bool) :=
  match entries with
  | [] => Ok acc
  | i :: rest => acc' ← invalidate_entry acc i; invalidate_entries rest acc'
  end.

(** [StatCache::Invalidate]. *)
Definition Invalidate (c : StatCache) (dirty_ : gmap nat bool)
    : result (StatCache * gmap nat bool) :=
  '(heap', dirty') ← invalidate_entries (map_to_list (paths_ c)) (heap c, dirty_);
  Ok ({| heap := heap'; paths_ := paths_ c |}, dirty').

(** A cache whose two files both have a node. *)
Definition full_cache : StatCache := {|
  heap := [ {| path_ := "main.cc"; mtime_ := 5; node_ := Some 0 |};
            {| path_ := "util.cc"; mtime_ := 7; node_ := Some 1 |} ];
  paths_ := {[ "main.cc"%string := 0; "util.cc"%string := 1 ]}
|}.

(** A memo with one answer: no path from edge 1 to edge 2. *)
Definition one_answer_memo : gmap nat (gmap nat bool) := {[ 1 := {[ 2 := false ]} ]}.

(** * Part II: properties *)

Section reachability.
Context (g : Graph).

Lemma reachable_unfold from to :
  reachable g from to ↔ has_reaching_input g from to.
Proof.
  split.
  - intros H. destruct H as [to input Hin He | to input e Hin He Hr].
    + exists input, from. auto.
    + exists input, e. auto.
  - intros (input & e & Hin & He & [-> | Hr]).
    + eapply reachable_direct; eauto.
    + eapply reachable_via; eauto.
Qed.

Lemma memo_ok_empty : memo_ok g ∅.
Proof. intros from to inner b H. by rewrite lookup_empty in H. Qed.

Lemma memo_ok_insert_empty m from :
  memo_ok g m → m !! from = None → memo_ok g (<[from := ∅]> m).
Proof.
  intros Hm Hnone f t inner b Hf Ht.
  destruct (decide (from = f)) as [<- | Hne].
  - rewrite lookup_insert_eq in Hf. injection Hf as <-.
    by rewrite lookup_empty in Ht.
  - rewrite lookup_insert_ne in Hf by done. eapply Hm; eauto.
Qed.

Lemma memo_ok_record m from to found :
  memo_ok g m → (found = true ↔ reachable g from to) →
  memo_ok g (alter (map_insert_new to found) from m).
Proof.
  intros Hm Hfound f t inner b Hf Ht.
  destruct (decide (from = f)) as [<- | Hne].
  - rewrite lookup_alter_eq in Hf.
    destruct (m !! from) as [inner0 |] eqn:Hm0; simplify_eq/=.
    unfold map_insert_new in Ht.
    destruct (inner0 !! to) eqn:Hto.
    + eapply Hm; eauto.
    + destruct (decide (to = t)) as [<- | Hne].
      * rewrite lookup_insert_eq in Ht. by injection Ht as <-.
      * rewrite lookup_insert_ne in Ht by done. eapply Hm; eauto.
  - rewrite lookup_alter_ne in Hf by done. eapply Hm; eauto.
Qed.

(** *** Partial correctness of the memoized search *)

Lemma scan_inputs_sound rec from ins :
  (∀ e m b m', memo_ok g m → rec e m = Ok (b, m') →
               (b = true ↔ reachable g from e) ∧ memo_ok g m') →
  ∀ m b m', memo_ok g m → scan_inputs g rec from ins m = Ok (b, m') →
    memo_ok g m' ∧
    (b = true ↔ ∃ input e, input ∈ ins ∧ in_edge g input = Some e ∧
                           (e = from ∨ reachable g from e)).
Proof.
  intros Hrec. induction ins as [| input rest IH]; intros m b m' Hm Hrun; simpl in Hrun.
  - injection Hrun as <- <-. split; [done |].
    split; [done |]. intros (input & e & Hin & _). by apply elem_of_nil in Hin.
  - destruct (in_edge g input) as [e |] eqn:He.
    + destruct (decide (e = from)) as [-> | Hne].
      * injection Hrun as <- <-. split; [done |]. split; [| done].
        intros _. exists input, from. split; [left |]; auto.
      * destruct (rec e m) as [[r m1] | |] eqn:Hr; simpl in Hrun; try done.
        destruct (Hrec _ _ _ _ Hm Hr) as [Hr_ok Hm1].
        destruct r.
        -- injection Hrun as <- <-. split; [done |]. split; [| done].
           intros _. exists input, e. split; [left |]. split; [done |].
           right. by apply Hr_ok.
        -- destruct (IH _ _ _ Hm1 Hrun) as [Hm' Hb]. split; [done |].
           rewrite Hb. split.
           ++ intros (i & e0 & Hin & Hrest). exists i, e0. split; [by right | done].
           ++ intros (i & e0 & Hin & He0 & Hor).
              apply elem_of_cons in Hin as [-> | Hin].
              ** rewrite He in He0. injection He0 as <-.
                 destruct Hor as [-> | Hreach]; [done |].
                 apply Hr_ok in Hreach. done.
              ** exists i, e0. auto.
    + destruct (IH _ _ _ Hm Hrun) as [Hm' Hb]. split; [done |].
      rewrite Hb. split.
      * intros (i & e0 & Hin & Hrest). exists i, e0. split; [by right | done].
      * intros (i & e0 & Hin & He0 & Hor).
        apply elem_of_cons in Hin as [-> | Hin]; [congruence |].
        exists i, e0. auto.
Qed.

Lemma PathExistsBetween_sound fuel :
  ∀ from to m b m', memo_ok g m → PathExistsBetween g fuel from to m = Ok (b, m') →
    (b = true ↔ reachable g from to) ∧ memo_ok g m'.
Proof.
  induction fuel as [| fuel IH]; intros from to m b m' Hm Hrun; [done |].
  simpl in Hrun.
  assert (Hsearch : ∀ m1, memo_ok g m1 →
    ('(found, m2) ← scan_inputs g (PathExistsBetween g fuel from) from (inputs_ g to) m1;
     Ok (found, alter (map_insert_new to found) from m2)) = Ok (b, m') →
    (b = true ↔ reachable g from to) ∧ memo_ok g m').
  { intros m1 Hm1 Hs.
    destruct (scan_inputs _ _ from (inputs_ g to) m1) as [[found m2] | |] eqn:Hscan;
      simpl in Hs; try done.
    injection Hs as <- <-.
    destruct (scan_inputs_sound _ from (inputs_ g to) (IH from) _ _ _ Hm1 Hscan)
      as [Hm2 Hfound].
    assert (found = true ↔ reachable g from to) as Hok
      by (rewrite reachable_unfold; exact Hfound).
    split; [done |]. by apply memo_ok_record. }
  destruct (m !! from) as [inner |] eqn:Hfrom.
  - destruct (inner !! to) as [b0 |] eqn:Hto.
    + injection Hrun as <- <-. split; [| done]. eapply Hm; eauto.
    + by apply Hsearch in Hrun.
  - apply Hsearch in Hrun; [done |]. by apply memo_ok_insert_empty.
Qed.

(** *** Termination on an acyclic graph *)

Lemma scan_inputs_terminates ins :
  (∀ input e, input ∈ ins → in_edge g input = Some e → ∃ N, returns_from g N e) →
  ∃ N, ∀ fuel, N ≤ fuel → ∀ from m,
    ∃ r, scan_inputs g (PathExistsBetween g fuel from) from ins m = Ok r.
Proof.
  induction ins as [| input rest IH]; intros Hins.
  - exists 0. intros fuel _ from m. simpl. eauto.
  - destruct IH as [N1 HN1].
    { intros i e Hi. apply Hins. by right. }
    destruct (in_edge g input) as [e |] eqn:He.
    + destruct (Hins input e) as [Ne HNe]; [by left | done |].
      exists (Ne `max` N1). intros fuel Hfuel from m. simpl. rewrite He.
      destruct (decide (e = from)); [eauto |].
      destruct (HNe fuel ltac:(lia) from m) as [[r m1] ->]. simpl.
      destruct r; [eauto |]. apply HN1. lia.
    + exists N1. intros fuel Hfuel from m. simpl. rewrite He. by apply HN1.
Qed.

Lemma PathExistsBetween_terminates to :
  Acc (feeds g) to → ∃ N, returns_from g N to.
Proof.
  induction 1 as [to _ IH].
  destruct (scan_inputs_terminates (inputs_ g to)) as [N HN].
  { intros input e Hin He. apply IH. by exists input. }
  exists (S N). intros fuel Hfuel from m.
  destruct fuel as [| fuel]; [lia |]. simpl.
  assert (Hsearch : ∀ m1, ∃ r,
    ('(found, m2) ← scan_inputs g (PathExistsBetween g fuel from) from (inputs_ g to) m1;
     Ok (found, alter (map_insert_new to found) from m2)) = Ok r).
  { intros m1. destruct (HN fuel ltac:(lia) from m1) as [[found m2] ->]. simpl. eauto. }
  destruct (m !! from) as [inner |]; [| apply Hsearch].
  destruct (inner !! to); [eauto | apply Hsearch].
Qed.

(** *** The fresh computation: correct, and terminating likewise *)

Lemma any_input_sound rec from ins :
  (∀ e b, rec e = Ok b → (b = true ↔ reachable g from e)) →
  ∀ b, any_input g rec from ins = Ok b →
    (b = true ↔ ∃ input e, input ∈ ins ∧ in_edge g input = Some e ∧
                           (e = from ∨ reachable g from e)).
Proof.
  intros Hrec. induction ins as [| input rest IH]; intros b Hrun; simpl in Hrun.
  - injection Hrun as <-. split; [done |].
    intros (input & e & Hin & _). by apply elem_of_nil in Hin.
  - destruct (in_edge g input) as [e |] eqn:He.
    + destruct (decide (e = from)) as [-> | Hne].
      { injection Hrun as <-. split; [| done]. intros _.
        exists input, from. split; [left |]; auto. }
      destruct (rec e) as [r | |] eqn:Hr; simpl in Hrun; try done.
      pose proof (Hrec _ _ Hr) as Hr_ok. destruct r.
      { injection Hrun as <-. split; [| done]. intros _.
        exists input, e. split; [left |]. split; [done |]. right. by apply Hr_ok. }
      rewrite (IH _ Hrun). split.
      * intros (i & e0 & Hin & Hrest). exists i, e0. split; [by right | done].
      * intros (i & e0 & Hin & He0 & Hor).
        apply elem_of_cons in Hin as [-> | Hin]; [| exists i, e0; auto].
        rewrite He in He0. injection He0 as <-.
        destruct Hor as [-> | Hreach]; [done |]. by apply Hr_ok in Hreach.
    + rewrite (IH _ Hrun). split.
      * intros (i & e0 & Hin & Hrest). exists i, e0. split; [by right | done].
      * intros (i & e0 & Hin & He0 & Hor).
        apply elem_of_cons in Hin as [-> | Hin]; [congruence |]. exists i, e0. auto.
Qed.

Lemma reachable_fresh_sound fuel :
  ∀ from to b, reachable_fresh g fuel from to = Ok b → (b = true ↔ reachable g from to).
Proof.
  induction fuel as [| fuel IH]; intros from to b Hrun; [done |].
  simpl in Hrun. rewrite reachable_unfold.
  eapply any_input_sound; [| exact Hrun]. apply IH.
Qed.

Lemma any_input_terminates ins :
  (∀ input e, input ∈ ins → in_edge g input = Some e →
     ∃ N, ∀ fuel, N ≤ fuel → ∀ from, ∃ b, reachable_fresh g fuel from e = Ok b) →
  ∃ N, ∀ fuel, N ≤ fuel → ∀ from,
    ∃ b, any_input g (reachable_fresh g fuel from) from ins = Ok b.
Proof.
  induction ins as [| input rest IH]; intros Hins.
  - exists 0. intros fuel _ from. simpl. eauto.
  - destruct IH as [N1 HN1].
    { intros i e Hi. apply Hins. by right. }
    destruct (in_edge g input) as [e |] eqn:He.
    + destruct (Hins input e) as [Ne HNe]; [by left | done |].
      exists (Ne `max` N1). intros fuel Hfuel from. simpl. rewrite He.
      destruct (decide (e = from)); [eauto |].
      destruct (HNe fuel ltac:(lia) from) as [r ->]. simpl.
      destruct r; [eauto |]. apply HN1. lia.
    + exists N1. intros fuel Hfuel from. simpl. rewrite He. by apply HN1.
Qed.

Lemma reachable_fresh_terminates to :
  Acc (feeds g) to →
  ∃ N, ∀ fuel, N ≤ fuel → ∀ from, ∃ b, reachable_fresh g fuel from to = Ok b.
Proof.
  induction 1 as [to _ IH].
  destruct (any_input_terminates (inputs_ g to)) as [N HN].
  { intros input e Hin He. apply IH. by exists input. }
  exists (S N). intros fuel Hfuel from.
  destruct fuel as [| fuel]; [lia |]. simpl. apply HN. lia.
Qed.

(** On an acyclic graph the definition decides itself. *)
Lemma reachable_dec_acyclic from to :
  Acc (feeds g) to → reachable g from to ∨ ¬ reachable g from to.
Proof.
  intros Hacc. destruct (reachable_fresh_terminates to Hacc) as [N HN].
  destruct (HN N ltac:(lia) from) as [b Hb].
  apply reachable_fresh_sound in Hb. destruct b.
  - left. by apply Hb.
  - right. intros Hr. apply Hb in Hr. done.
Qed.


Lemma acyclic_by_rank (rank : Edge → nat) :
  (∀ e' e, feeds g e' e → rank e' < rank e) → acyclic g.
Proof. intros Hrank. exact (Wf_nat.well_founded_lt_compat _ rank _ Hrank). Qed.

(** C1: on an acyclic graph and from a memo that holds only answers of the
    definition, [PathExistsBetween(from, to)] returns (with enough fuel) a
    boolean that is true iff some direct input of [to] has a producing edge
    [e] with [e = from] or reachable(from, e); it is false when no input of
    [to] has a producing edge; it equals the result of the fresh unmemoized
    computation; and the memo it leaves holds only answers of the
    definition. *)
Theorem PathExistsBetween_memo_consistent (from to : Edge) (m : AdjacencyMap) :
  acyclic g → memo_ok g m →
  ∃ N, ∀ fuel, N ≤ fuel →
    ∃ b m', PathExistsBetween g fuel from to m = Ok (b, m') ∧
            (b = true ↔ has_reaching_input g from to) ∧
            ((∀ input, input ∈ inputs_ g to → in_edge g input = None) → b = false) ∧
            reachable_fresh g fuel from to = Ok b ∧
            memo_ok g m'.
Proof.
  intros Hacyclic Hm.
  destruct (PathExistsBetween_terminates to (Hacyclic to)) as [N1 HN1].
  destruct (reachable_fresh_terminates to (Hacyclic to)) as [N2 HN2].
  exists (N1 `max` N2). intros fuel Hfuel.
  destruct (HN1 fuel ltac:(lia) from m) as [[b m'] Hrun].
  destruct (HN2 fuel ltac:(lia) from) as [b' Hfresh].
  destruct (PathExistsBetween_sound fuel _ _ _ _ _ Hm Hrun) as [Hb Hm'].
  pose proof (reachable_fresh_sound fuel _ _ _ Hfresh) as Hb'.
  assert (b' = b) as ->.
  { destruct b, b'; try done.
    - destruct Hb as [Hb _]. destruct Hb' as [_ Hb']. specialize (Hb' (Hb eq_refl)). done.
    - destruct Hb as [_ Hb]. destruct Hb' as [Hb' _]. specialize (Hb (Hb' eq_refl)). done. }
  exists b, m'. split; [done |]. split; [by rewrite <- reachable_unfold |].
  split; [| done].
  intros Hnone. destruct b; [| done].
  destruct Hb as [Hb _]. specialize (Hb eq_refl).
  apply reachable_unfold in Hb as (input & e & Hin & He & _).
  rewrite (Hnone _ Hin) in He. done.
Qed.

End reachability.

Section scanner.
Context (g : Graph).

(** ** The loops of [ProcessNodeDeps] *)

Lemma collect_deplog_edges_None dep_nodes : ∀ acc,
  collect_deplog_edges g dep_nodes acc = None ↔
  ∃ d, d ∈ dep_nodes ∧ path g d = "build.ninja"%string.
Proof.
  induction dep_nodes as [| d rest IH]; intros acc; simpl.
  - split; [done |]. intros (d & Hd & _). by apply elem_of_nil in Hd.
  - destruct (decide (path g d = "build.ninja"%string)) as [Hd | Hd].
    + split; [| done]. intros _. exists d. split; [left | done].
    + rewrite IH. split.
      * intros (d' & Hin & Hp). exists d'. split; [by right | done].
      * intros (d' & Hin & Hp). apply elem_of_cons in Hin as [-> | Hin]; [done |].
        by exists d'.
Qed.

Lemma collect_deplog_edges_Some dep_nodes : ∀ acc edges,
  collect_deplog_edges g dep_nodes acc = Some edges →
  ∀ e, e ∈ edges ↔ e ∈ acc ∨ ∃ d, d ∈ dep_nodes ∧ in_edge g d = Some e.
Proof.
  induction dep_nodes as [| d rest IH]; intros acc edges Hrun e; simpl in Hrun.
  - injection Hrun as <-. split; [by left |].
    intros [He | (d & Hd & _)]; [done | by apply elem_of_nil in Hd].
  - destruct (decide (path g d = "build.ninja"%string)); [done |].
    rewrite (IH _ _ Hrun e). destruct (in_edge g d) as [e0 |] eqn:He0.
    + rewrite elem_of_union, elem_of_singleton. split.
      * intros [[-> | Hacc] | (d' & Hin & Hd')]; [right | by left | right].
        -- exists d. split; [left | done].
        -- exists d'. split; [by right | done].
      * intros [Hacc | (d' & Hin & Hd')]; [by left; right |].
        apply elem_of_cons in Hin as [-> | Hin].
        -- left; left. congruence.
        -- right. by exists d'.
    + split.
      * intros [Hacc | (d' & Hin & Hd')]; [by left | right].
        exists d'. split; [by right | done].
      * intros [Hacc | (d' & Hin & Hd')]; [by left |].
        apply elem_of_cons in Hin as [-> | Hin]; [congruence |].
        right. by exists d'.
Qed.

Lemma set_order_perm (s : gset nat) : set_order s ≡ₚ elements s.
Proof. apply merge_sort_Permutation. Qed.

Lemma elem_of_set_order (s : gset nat) e : e ∈ set_order s ↔ e ∈ s.
Proof. by rewrite set_order_perm, elem_of_elements. Qed.

Lemma NoDup_set_order (s : gset nat) : NoDup (set_order s).
Proof. rewrite set_order_perm. apply NoDup_elements. Qed.

Lemma find_missing_deps_sound fuel to : ∀ des m missing m',
  memo_ok g m → find_missing_deps g fuel (Some to) des m = Ok (missing, m') →
  memo_ok g m' ∧ sublist missing des ∧
  ∀ e, e ∈ missing ↔ e ∈ des ∧ ¬ reachable g e to.
Proof.
  induction des as [| de rest IH]; intros m missing m' Hm Hrun; simpl in Hrun.
  - injection Hrun as <- <-. split; [done |]. split; [done |].
    intros e. split; [| by intros [? _]]. intros He. by apply elem_of_nil in He.
  - destruct (PathExistsBetween g fuel de to m) as [[found m1] | |] eqn:Hpeb;
      simpl in Hrun; try done.
    destruct (find_missing_deps g fuel (Some to) rest m1) as [[missing1 m2] | |] eqn:Hrest;
      simpl in Hrun; try done.
    injection Hrun as <- <-.
    destruct (PathExistsBetween_sound g fuel _ _ _ _ _ Hm Hpeb) as [Hfound Hm1].
    destruct (IH _ _ _ Hm1 Hrest) as (Hm2 & Hsub & Hmem).
    split; [done |]. destruct found.
    + split; [by apply sublist_cons |]. intros e. rewrite Hmem, elem_of_cons.
      split; [intros [? ?]; auto |].
      intros [[-> | Hin] Hnr]; [| done]. destruct Hnr. by apply Hfound.
    + split; [by apply sublist_skip |]. intros e. rewrite !elem_of_cons, Hmem.
      split.
      * intros [-> | [Hin Hnr]]; [| auto]. split; [by left |].
        intros Hr. apply Hfound in Hr. done.
      * intros [[-> | Hin] Hnr]; auto.
Qed.

Lemma find_missing_deps_terminates N fuel to :
  returns_from g N to → N ≤ fuel →
  ∀ des m, ∃ r, find_missing_deps g fuel (Some to) des m = Ok r.
Proof.
  intros HN Hfuel. induction des as [| de rest IH]; intros m; simpl; [eauto |].
  destruct (HN fuel Hfuel de m) as [[found m1] ->]. simpl.
  destruct (IH m1) as [[missing m2] ->]. simpl. eauto.
Qed.

(** ** The reporting loops as one pass over the reported entries *)

Lemma report_dep_flat node item dep_nodes : ∀ acc,
  foldl (report_dep g node item) acc dep_nodes =
  foldl (report_pair g node) acc
        ((λ d, (d, item)) <$> filter (λ d, in_edge g d = Some item) dep_nodes).
Proof.
  induction dep_nodes as [| d rest IH]; intros acc; [done |].
  simpl. rewrite IH. unfold report_dep at 1. rewrite filter_cons.
  destruct (decide (in_edge g d = Some item)); [| done].
  by rewrite fmap_cons.
Qed.

Lemma report_missing_flat_from node dep_nodes missing : ∀ acc,
  foldl (λ acc item, foldl (report_dep g node item) acc dep_nodes) acc missing =
  foldl (report_pair g node) acc (reported g dep_nodes missing).
Proof.
  induction missing as [| item rest IH]; intros acc; [done |].
  unfold reported. simpl. rewrite foldl_app, <- report_dep_flat. apply IH.
Qed.

Lemma report_missing_flat node dep_nodes missing s :
  report_missing g node dep_nodes missing s =
  foldl (report_pair g node) (∅, s) (reported g dep_nodes missing).
Proof. apply report_missing_flat_from. Qed.

Lemma union_swap_L `{Countable K} (X A N : gset K) : X ∪ (A ∪ N) = A ∪ X ∪ N.
Proof. by rewrite (assoc_L (∪)), (comm_L (∪) X A). Qed.

Lemma report_pairs_fields node pairs : ∀ names s,
  let r := foldl (report_pair g node) (names, s) pairs in
  r.1 = list_to_set ((λ p, name g (rule g p.2)) <$> pairs) ∪ names ∧
  delegate_calls r.2 = delegate_calls s ++ (call_for g node <$> pairs) ∧
  generated_nodes_ r.2 = list_to_set (pairs.*1) ∪ generated_nodes_ s ∧
  generator_rules_ r.2 = list_to_set ((λ p, rule g p.2) <$> pairs) ∪ generator_rules_ s ∧
  nodes_missing_deps_ r.2 = nodes_missing_deps_ s ∧
  missing_dep_path_count_ r.2 = missing_dep_path_count_ s ∧
  adjacency_map_ r.2 = adjacency_map_ s ∧
  seen_ r.2 = seen_ s ∧ classified r.2 = classified s ∧ deps_log_ r.2 = deps_log_ s.
Proof.
  induction pairs as [| p rest IH]; intros names s; simpl.
  - rewrite app_nil_r, !(left_id_L ∅ (∪)). done.
  - destruct (IH ({[name g (rule g p.2)]} ∪ names)
                 (record_missing node p.1 (path g p.1) (rule g p.2) s))
      as (H1 & H2 & H3 & H4 & H5 & H6 & H7 & H8 & H9 & H10).
    unfold report_pair at 2 4 6 8 10 12 14 16 18 20. simpl.
    rewrite H1, H2, H3, H4, H5, H6, H7, H8, H9, H10. simpl.
    rewrite <- app_assoc. repeat split; try done; apply union_swap_L.
Qed.







(** ** ProcessNodeDeps *)

Lemma ProcessNodeDeps_sound fuel node edge dep_nodes s s' :
  in_edge g node = Some edge → memo_ok g (adjacency_map_ s) →
  (∀ d, d ∈ dep_nodes → path g d ≠ "build.ninja"%string) →
  ProcessNodeDeps g fuel node dep_nodes s = Ok s' →
  ∃ missing m',
    NoDup missing ∧ (∀ e, e ∈ missing ↔ missing_edge g edge dep_nodes e) ∧
    memo_ok g m' ∧
    s' = match missing with
         | [] => set_adjacency_map m' s
         | _ :: _ =>
           let r := foldl (report_pair g node) (∅, set_adjacency_map m' s)
                          (reported g dep_nodes missing) in
           count_and_flag node (size r.1) r.2
         end.
Proof.
  intros Hedge Hm Hpaths Hrun. unfold ProcessNodeDeps in Hrun. rewrite Hedge in Hrun.
  destruct (collect_deplog_edges g dep_nodes ∅) as [edges |] eqn:Hcollect.
  2: { apply collect_deplog_edges_None in Hcollect as (d & Hd & Hp).
       by destruct (Hpaths d Hd). }
  destruct (find_missing_deps g fuel (Some edge) (set_order edges) (adjacency_map_ s))
    as [[missing m'] | |] eqn:Hfind; simpl in Hrun; try done.
  destruct (find_missing_deps_sound fuel edge _ _ _ _ Hm Hfind) as (Hm' & Hsub & Hmem).
  exists missing, m'. split.
  { eapply sublist_NoDup; [apply NoDup_set_order | exact Hsub]. }
  split.
  { intros e. rewrite Hmem, elem_of_set_order.
    rewrite (collect_deplog_edges_Some _ _ _ Hcollect e). unfold missing_edge.
    split; [intros [[He | He] Hnr]; [| done] | intros [He Hnr]; auto].
    by apply not_elem_of_empty in He. }
  split; [done |].
  destruct missing as [| item rest]; [by injection Hrun as <- |].
  rewrite report_missing_flat in Hrun.
  destruct (foldl _ _ _) as [names s2]. by injection Hrun as <-.
Qed.

Lemma ProcessNodeDeps_terminates N fuel node edge dep_nodes s :
  in_edge g node = Some edge → returns_from g N edge → N ≤ fuel →
  ∃ s', ProcessNodeDeps g fuel node dep_nodes s = Ok s'.
Proof.
  intros Hedge HN Hfuel. unfold ProcessNodeDeps. rewrite Hedge.
  destruct (collect_deplog_edges g dep_nodes ∅) as [edges |]; [| eauto].
  destruct (find_missing_deps_terminates N fuel edge HN Hfuel (set_order edges)
              (adjacency_map_ s)) as [[missing m'] ->]. simpl.
  destruct missing; [eauto |].
  destruct (report_missing _ _ _ _ _). eauto.
Qed.

(** What a call never touches: the visited set, the classification trace
    and the dependency log. *)
Lemma ProcessNodeDeps_frame fuel node dep_nodes s s' :
  ProcessNodeDeps g fuel node dep_nodes s = Ok s' →
  seen_ s' = seen_ s ∧ classified s' = classified s ∧ deps_log_ s' = deps_log_ s.
Proof.
  unfold ProcessNodeDeps. intros Hrun.
  destruct (collect_deplog_edges g dep_nodes ∅) as [edges |];
    [| by injection Hrun as <-].
  destruct (find_missing_deps _ _ _ _ _) as [[missing m'] | |]; simpl in Hrun; try done.
  destruct missing as [| item rest]; [by injection Hrun as <- |].
  rewrite report_missing_flat in Hrun.
  pose proof (report_pairs_fields node (reported g dep_nodes (item :: rest)) ∅
                (set_adjacency_map m' s)) as Hfields.
  destruct (foldl _ _ _) as [names s2]. injection Hrun as <-.
  simpl in Hfields. destruct Hfields as (_ & _ & _ & _ & _ & _ & _ & H8 & H9 & H10).
  simpl. auto.
Qed.

(** C4: a dependency named "build.ninja" anywhere in the array makes
    [ProcessNodeDeps] return at once: the scanner is left exactly as it
    was, so no report is made for [node] and the nodes-with-gaps set, the
    generated-inputs set, the generator-rules set and the problem count are
    unchanged, whatever the other dependencies are. *)
Theorem ProcessNodeDeps_build_ninja fuel node dep_nodes s :
  (∃ d, d ∈ dep_nodes ∧ path g d = "build.ninja"%string) →
  ProcessNodeDeps g fuel node dep_nodes s = Ok s.
Proof.
  intros Hd. unfold ProcessNodeDeps.
  apply (collect_deplog_edges_None dep_nodes ∅) in Hd. by rewrite Hd.
Qed.

(** C3: a call of [ProcessNodeDeps] that finds at least one
    missing-dependency edge adds to the problem count the number of distinct
    rule names among the missing edges of the node (the sum being stored
    back into the 32-bit counter, hence exact as long as it fits), and adds
    the node to the nodes-with-gaps set. *)
Theorem ProcessNodeDeps_counts_rule_names node edge dep_nodes s :
  acyclic g → memo_ok g (adjacency_map_ s) → in_edge g node = Some edge →
  (∀ d, d ∈ dep_nodes → path g d ≠ "build.ninja"%string) →
  (∃ e, missing_edge g edge dep_nodes e) →
  ∃ N, ∀ fuel, N ≤ fuel →
    ∃ s' (rule_names : gset string),
      ProcessNodeDeps g fuel node dep_nodes s = Ok s' ∧
      (∀ r, r ∈ rule_names ↔
            ∃ e, missing_edge g edge dep_nodes e ∧ name g (rule g e) = r) ∧
      missing_dep_path_count_ s' =
        int_of_Z (missing_dep_path_count_ s + Z.of_nat (size rule_names)) ∧
      ((- 2 ^ 31 ≤ missing_dep_path_count_ s + Z.of_nat (size rule_names) < 2 ^ 31)%Z →
       missing_dep_path_count_ s' =
         (missing_dep_path_count_ s + Z.of_nat (size rule_names))%Z) ∧
      nodes_missing_deps_ s' = {[node]} ∪ nodes_missing_deps_ s.
Proof.
  intros Hacyclic Hm Hedge Hpaths [e0 He0].
  destruct (PathExistsBetween_terminates g edge (Hacyclic edge)) as [N HN].
  exists N. intros fuel Hfuel.
  destruct (ProcessNodeDeps_terminates N fuel node edge dep_nodes s Hedge HN Hfuel)
    as [s' Hrun].
  destruct (ProcessNodeDeps_sound _ _ _ _ _ _ Hedge Hm Hpaths Hrun)
    as (missing & m' & Hnd & Hmem & Hm' & ->).
  destruct missing as [| item rest].
  { apply Hmem in He0. by apply elem_of_nil in He0. }
  set (pairs := reported g dep_nodes (item :: rest)).
  pose proof (report_pairs_fields node pairs ∅ (set_adjacency_map m' s))
    as (H1 & _ & _ & _ & H5 & H6 & _).
  cbv zeta in H1, H5, H6. cbv zeta.
  set (r := foldl (report_pair g node) (∅, set_adjacency_map m' s) pairs) in *.
  exists (count_and_flag node (size r.1) r.2), r.1.
  split; [done |]. split.
  { intros rn. rewrite H1, (right_id_L ∅ (∪)), elem_of_list_to_set, list_elem_of_fmap.
    split.
    - intros ([d e] & -> & Hin). simpl. exists e. split; [| done].
      apply Hmem. unfold pairs, reported in Hin.
      apply list_elem_of_bind in Hin as (e' & Hin & He').
      apply list_elem_of_fmap in Hin as (d' & [= -> ->] & _). done.
    - intros (e & He & <-). pose proof He as [(d & Hd & Hde) _].
      exists (d, e). split; [done |]. unfold pairs, reported.
      apply list_elem_of_bind. exists e. split; [| by apply Hmem].
      apply list_elem_of_fmap. exists d. split; [done |].
      by apply list_elem_of_filter. }
  simpl. rewrite H5, H6. simpl. split; [done |]. split; [| done].
  intros Hrange. unfold int_of_Z. rewrite Z.mod_small by lia. lia.
Qed.

(** ** The depfile loader *)

Lemma ProcessDepfileDeps_pushes edge ins : ∀ loader,
  ProcessDepfileDeps g loader edge ins =
  (true, {| loader_deps_log := loader_deps_log loader;
            dep_nodes_output_ :=
              dep_nodes_output_ loader ++
              ((λ item, GetNode g (CanonicalizePath g item)) <$> ins) |}).
Proof.
  induction ins as [| item rest IH]; intros loader; simpl.
  - rewrite app_nil_r. by destruct loader.
  - rewrite IH. simpl. by rewrite <- app_assoc.
Qed.

Lemma LoadDeps_deps_log loader edge :
  loader_deps_log (LoadDeps g loader edge).2 = loader_deps_log loader.
Proof.
  unfold LoadDeps. destruct (depfile g edge); try done.
  by rewrite ProcessDepfileDeps_pushes.
Qed.

Lemma set_deps_log_same s : set_deps_log (deps_log_ s) s = s.
Proof. by destruct s. Qed.

(** ** ProcessNode *)

Lemma visit_step_refl s : visit_step s s.
Proof.
  split; [done |]. split; [done |]. exists []. rewrite app_nil_r.
  split; [done |]. split; [constructor |]. intros n Hn. by apply elem_of_nil in Hn.
Qed.

Lemma visit_step_trans s1 s2 s3 : visit_step s1 s2 → visit_step s2 s3 → visit_step s1 s3.
Proof.
  intros (Hlog1 & Hseen1 & new1 & Hc1 & Hnd1 & Hnew1)
         (Hlog2 & Hseen2 & new2 & Hc2 & Hnd2 & Hnew2).
  split; [congruence |]. split; [by transitivity (seen_ s2) |].
  exists (new1 ++ new2). split; [by rewrite Hc2, Hc1, app_assoc |]. split.
  - apply NoDup_app. split; [done |]. split; [| done].
    intros n Hn1 Hn2. destruct (Hnew2 n Hn2) as [Hnot _].
    destruct (Hnew1 n Hn1) as [_ Hin]. done.
  - intros n Hn. apply elem_of_app in Hn as [Hn | Hn].
    + destruct (Hnew1 n Hn) as [Hnot Hin]. split; [done | by apply Hseen2].
    + destruct (Hnew2 n Hn) as [Hnot Hin]. split; [| done].
      intros Hn1. by apply Hnot, Hseen1.
Qed.

Lemma visit_step_classified_once s s' :
  visit_step s s' → classified_once s → classified_once s'.
Proof.
  intros (_ & Hseen & new & Hc & Hnd & Hnew) [Hnd0 Hsub]. split.
  - rewrite Hc. apply NoDup_app. split; [done |]. split; [| done].
    intros n Hn Hn'. destruct (Hnew n Hn') as [Hnot _]. by apply Hnot, Hsub.
  - intros n. rewrite Hc, elem_of_app. intros [Hn | Hn].
    + by apply Hseen, Hsub.
    + by apply Hnew.
Qed.

Lemma classify_deps_frame fuel n edge s s' :
  classify_deps g fuel n edge s = Ok s' →
  seen_ s' = seen_ s ∧ classified s' = classified s ++ [n] ∧ deps_log_ s' = deps_log_ s.
Proof.
  unfold classify_deps. intros Hrun.
  destruct (decide (GetBinding g edge "deps" ≠ ""%string)).
  - destruct (GetDeps _ n) as [deps |].
    + by apply ProcessNodeDeps_frame in Hrun as (-> & -> & ->).
    + by injection Hrun as <-.
  - pose proof (LoadDeps_deps_log
      {| loader_deps_log := deps_log_ (note_classified n s); dep_nodes_output_ := [] |}
      edge) as Hlog.
    destruct (LoadDeps g _ edge) as [ok loader]. simpl in Hlog. rewrite Hlog in Hrun.
    change (deps_log_ s) with (deps_log_ (note_classified n s)) in Hrun.
    rewrite set_deps_log_same in Hrun.
    destruct (dep_nodes_output_ loader).
    + by injection Hrun as <-.
    + by apply ProcessNodeDeps_frame in Hrun as (-> & -> & ->).
Qed.

Lemma process_inputs_steps (rec : option nat → Scanner → result Scanner) ins :
  (∀ node s s', rec node s = Ok s' → visit_step s s') →
  ∀ s s', process_inputs rec ins s = Ok s' → visit_step s s'.
Proof.
  intros Hrec. induction ins as [| i rest IH]; intros s s' Hrun; simpl in Hrun.
  - injection Hrun as <-. apply visit_step_refl.
  - destruct (rec (Some i) s) as [s1 | |] eqn:Hi; simpl in Hrun; try done.
    eapply visit_step_trans; [by eapply Hrec | by apply IH].
Qed.

Lemma ProcessNode_steps fuel : ∀ node s s',
  ProcessNode g fuel node s = Ok s' → visit_step s s'.
Proof.
  induction fuel as [| fuel IH]; intros node s s' Hrun; [done |]. simpl in Hrun.
  destruct node as [n |]; [| injection Hrun as <-; apply visit_step_refl].
  destruct (in_edge g n) as [edge |]; [| injection Hrun as <-; apply visit_step_refl].
  destruct (decide (n ∈ seen_ s)) as [Hseen | Hseen];
    [injection Hrun as <-; apply visit_step_refl |].
  destruct (process_inputs _ _ _) as [s1 | |] eqn:Hins; simpl in Hrun; try done.
  apply (process_inputs_steps _ _ IH) in Hins as (Hlog & Hsub & new & Hc & Hnd & Hnew).
  apply classify_deps_frame in Hrun as (Hs & Hcl & Hl). simpl in *.
  assert (Hn1 : n ∈ seen_ s1) by (by apply Hsub, elem_of_union_l, elem_of_singleton).
  split; [congruence |]. split.
  { rewrite Hs. intros x Hx. by apply Hsub, elem_of_union_r. }
  exists (new ++ [n]). split; [by rewrite Hcl, Hc, app_assoc |]. split.
  - apply NoDup_app. split; [done |]. split; [| apply NoDup_singleton].
    intros x Hx Hx'. apply list_elem_of_singleton in Hx' as ->.
    destruct (Hnew n Hx) as [Hnot _]. by apply Hnot, elem_of_union_l, elem_of_singleton.
  - intros x Hx. rewrite Hs. apply elem_of_app in Hx as [Hx | Hx].
    + destruct (Hnew x Hx) as [Hnot Hin]. split; [| done].
      intros Hx'. by apply Hnot, elem_of_union_r.
    + apply list_elem_of_singleton in Hx as ->. done.
Qed.

Lemma ProcessNode_marks_seen fuel n edge s s' :
  in_edge g n = Some edge → ProcessNode g fuel (Some n) s = Ok s' → n ∈ seen_ s'.
Proof.
  intros Hedge Hrun. destruct fuel as [| fuel]; [done |]. simpl in Hrun.
  rewrite Hedge in Hrun.
  destruct (decide (n ∈ seen_ s)) as [Hseen | Hseen]; [by injection Hrun as <- |].
  destruct (process_inputs _ _ _) as [s1 | |] eqn:Hins; simpl in Hrun; try done.
  apply (process_inputs_steps _ _ (ProcessNode_steps fuel)) in Hins as (_ & Hsub & _).
  apply classify_deps_frame in Hrun as (-> & _).
  by apply Hsub, elem_of_union_l, elem_of_singleton.
Qed.

(** *** The memo stays consistent over a whole session *)

Lemma find_missing_deps_memo_ok fuel edge des m missing m' :
  memo_ok g m → find_missing_deps g fuel edge des m = Ok (missing, m') → memo_ok g m'.
Proof.
  intros Hm Hrun. destruct edge as [to |].
  - by destruct (find_missing_deps_sound fuel to _ _ _ _ Hm Hrun).
  - destruct des; simpl in Hrun; [| done]. by injection Hrun as _ <-.
Qed.

Lemma ProcessNodeDeps_memo_ok fuel node dep_nodes s s' :
  memo_ok g (adjacency_map_ s) → ProcessNodeDeps g fuel node dep_nodes s = Ok s' →
  memo_ok g (adjacency_map_ s').
Proof.
  unfold ProcessNodeDeps. intros Hm Hrun.
  destruct (collect_deplog_edges g dep_nodes ∅) as [edges |];
    [| by injection Hrun as <-].
  destruct (find_missing_deps _ _ _ _ _) as [[missing m'] | |] eqn:Hfind;
    simpl in Hrun; try done.
  apply (find_missing_deps_memo_ok _ _ _ _ _ _ Hm) in Hfind.
  destruct missing as [| item rest]; [by injection Hrun as <- |].
  rewrite report_missing_flat in Hrun.
  pose proof (report_pairs_fields node (reported g dep_nodes (item :: rest)) ∅
                (set_adjacency_map m' s)) as Hfields.
  destruct (foldl _ _ _) as [names s2]. injection Hrun as <-.
  simpl in Hfields. destruct Hfields as (_ & _ & _ & _ & _ & _ & H7 & _).
  simpl. by rewrite H7.
Qed.

Lemma classify_deps_memo_ok fuel n edge s s' :
  memo_ok g (adjacency_map_ s) → classify_deps g fuel n edge s = Ok s' →
  memo_ok g (adjacency_map_ s').
Proof.
  unfold classify_deps. intros Hm Hrun.
  destruct (decide (GetBinding g edge "deps" ≠ ""%string)).
  - destruct (GetDeps _ n) as [deps |].
    + by apply ProcessNodeDeps_memo_ok in Hrun.
    + by injection Hrun as <-.
  - destruct (LoadDeps g _ edge) as [ok loader].
    destruct (dep_nodes_output_ loader).
    + by injection Hrun as <-.
    + by apply ProcessNodeDeps_memo_ok in Hrun.
Qed.

Lemma process_inputs_memo_ok (rec : option nat → Scanner → result Scanner) ins :
  (∀ node s s', memo_ok g (adjacency_map_ s) → rec node s = Ok s' →
                memo_ok g (adjacency_map_ s')) →
  ∀ s s', memo_ok g (adjacency_map_ s) → process_inputs rec ins s = Ok s' →
          memo_ok g (adjacency_map_ s').
Proof.
  intros Hrec. induction ins as [| i rest IH]; intros s s' Hm Hrun; simpl in Hrun.
  - by injection Hrun as <-.
  - destruct (rec (Some i) s) as [s1 | |] eqn:Hi; simpl in Hrun; try done.
    eapply IH; [| exact Hrun]. by eapply Hrec.
Qed.

Lemma ProcessNode_memo_ok fuel : ∀ node s s',
  memo_ok g (adjacency_map_ s) → ProcessNode g fuel node s = Ok s' →
  memo_ok g (adjacency_map_ s').
Proof.
  induction fuel as [| fuel IH]; intros node s s' Hm Hrun; [done |]. simpl in Hrun.
  destruct node as [n |]; [| by injection Hrun as <-].
  destruct (in_edge g n) as [edge |]; [| by injection Hrun as <-].
  destruct (decide (n ∈ seen_ s)); [by injection Hrun as <- |].
  destruct (process_inputs _ _ _) as [s1 | |] eqn:Hins; simpl in Hrun; try done.
  eapply classify_deps_memo_ok; [| exact Hrun].
  eapply (process_inputs_memo_ok _ _ IH); [| exact Hins]. done.
Qed.

(** A session that starts with a new scanner only ever holds answers of
    the definition in its memo. *)
Lemma scan_roots_memo_ok fuel roots : ∀ s s',
  memo_ok g (adjacency_map_ s) → scan_roots g fuel roots s = Ok s' →
  memo_ok g (adjacency_map_ s').
Proof.
  induction roots as [| root rest IH]; intros s s' Hm Hrun; simpl in Hrun.
  - by injection Hrun as <-.
  - destruct (ProcessNode g fuel root s) as [s1 | |] eqn:Hroot; simpl in Hrun; try done.
    eapply IH; [| exact Hrun]. by eapply ProcessNode_memo_ok.
Qed.

(** *** Termination of the visit on an acyclic graph *)

Lemma classify_deps_terminates N fuel n edge s :
  in_edge g n = Some edge → returns_from g N edge → N ≤ fuel →
  ∃ s', classify_deps g fuel n edge s = Ok s'.
Proof.
  intros Hedge HN Hfuel. unfold classify_deps.
  destruct (decide (GetBinding g edge "deps" ≠ ""%string)).
  - destruct (GetDeps _ n); [| eauto]. by eapply ProcessNodeDeps_terminates.
  - destruct (LoadDeps g _ edge) as [ok loader].
    destruct (dep_nodes_output_ loader); [eauto |].
    by eapply ProcessNodeDeps_terminates.
Qed.

Lemma process_inputs_terminates ins :
  (∀ i, i ∈ ins → ∃ N, ∀ fuel, N ≤ fuel → ∀ s, ∃ s', ProcessNode g fuel (Some i) s = Ok s') →
  ∃ N, ∀ fuel, N ≤ fuel → ∀ s, ∃ s', process_inputs (ProcessNode g fuel) ins s = Ok s'.
Proof.
  induction ins as [| i rest IH]; intros Hins.
  - exists 0. intros fuel _ s. simpl. eauto.
  - destruct IH as [N1 HN1].
    { intros j Hj. apply Hins. by right. }
    destruct (Hins i) as [Ni HNi]; [by left |].
    exists (Ni `max` N1). intros fuel Hfuel s. simpl.
    destruct (HNi fuel ltac:(lia) s) as [s1 ->]. simpl. apply HN1. lia.
Qed.

Lemma ProcessNode_terminates_edge edge :
  Acc (feeds g) edge →
  ∃ N, ∀ fuel, N ≤ fuel → ∀ n s, in_edge g n = Some edge →
    ∃ s', ProcessNode g fuel (Some n) s = Ok s'.
Proof.
  induction 1 as [edge Hacc IH].
  destruct (PathExistsBetween_terminates g edge (Acc_intro _ Hacc)) as [Np HNp].
  destruct (process_inputs_terminates (inputs_ g edge)) as [Ni HNi].
  { intros i Hi. destruct (in_edge g i) as [e |] eqn:He.
    - destruct (IH e) as [N HN]; [by exists i |].
      exists N. intros fuel Hfuel s. by apply HN.
    - exists 1. intros fuel Hfuel s. destruct fuel as [| fuel]; [lia |].
      simpl. rewrite He. eauto. }
  exists (S (Np `max` Ni)). intros fuel Hfuel n s Hedge.
  destruct fuel as [| fuel]; [lia |]. simpl. rewrite Hedge.
  destruct (decide (n ∈ seen_ s)); [eauto |].
  destruct (HNi fuel ltac:(lia) (insert_seen n s)) as [s1 ->]. simpl.
  eapply classify_deps_terminates; [done | exact HNp | lia].
Qed.

Lemma ProcessNode_terminates node :
  acyclic g → ∃ N, ∀ fuel, N ≤ fuel → ∀ s, ∃ s', ProcessNode g fuel node s = Ok s'.
Proof.
  intros Hacyclic. destruct node as [n |].
  - destruct (in_edge g n) as [edge |] eqn:Hedge.
    + destruct (ProcessNode_terminates_edge edge (Hacyclic edge)) as [N HN].
      exists N. intros fuel Hfuel s. by apply HN.
    + exists 1. intros fuel Hfuel s. destruct fuel as [| fuel]; [lia |].
      simpl. rewrite Hedge. eauto.
  - exists 1. intros fuel Hfuel s. destruct fuel as [| fuel]; [lia |]. simpl. eauto.
Qed.

Lemma scan_roots_terminates roots :
  acyclic g → ∃ N, ∀ fuel, N ≤ fuel → ∀ s, ∃ s', scan_roots g fuel roots s = Ok s'.
Proof.
  intros Hacyclic. induction roots as [| root rest [N1 HN1]].
  - exists 0. intros fuel _ s. simpl. eauto.
  - destruct (ProcessNode_terminates root Hacyclic) as [Nr HNr].
    exists (Nr `max` N1). intros fuel Hfuel s. simpl.
    destruct (HNr fuel ltac:(lia) s) as [s1 ->]. simpl. apply HN1. lia.
Qed.

Lemma scan_roots_steps fuel roots : ∀ s s',
  scan_roots g fuel roots s = Ok s' → visit_step s s'.
Proof.
  induction roots as [| root rest IH]; intros s s' Hrun; simpl in Hrun.
  - injection Hrun as <-. apply visit_step_refl.
  - destruct (ProcessNode g fuel root s) as [s1 | |] eqn:Hroot; simpl in Hrun; try done.
    eapply visit_step_trans; [by eapply ProcessNode_steps | by apply IH].
Qed.

(** C5: on an acyclic graph [ProcessNode] returns, and calling it again on
    the same node changes nothing; a call on an absent node, on a node
    without producing edge, or on a node already visited leaves the scanner
    exactly as it was; and the dependency classification never runs twice
    for a node: the trace of the classified nodes stays free of
    duplicates. *)
Theorem ProcessNode_idempotent (node : option Node) (s : Scanner) :
  acyclic g → classified_once s →
  (∀ fuel, ProcessNode g (S fuel) None s = Ok s) ∧
  (∀ fuel n, in_edge g n = None → ProcessNode g (S fuel) (Some n) s = Ok s) ∧
  (∀ fuel n, n ∈ seen_ s → ProcessNode g (S fuel) (Some n) s = Ok s) ∧
  ∃ N, ∀ fuel, N ≤ fuel →
    ∃ s', ProcessNode g fuel node s = Ok s' ∧
          ProcessNode g fuel node s' = Ok s' ∧
          classified_once s'.
Proof.
  intros Hacyclic Honce. split; [done |]. split.
  { intros fuel n Hn. simpl. by rewrite Hn. }
  split.
  { intros fuel n Hn. simpl. destruct (in_edge g n); [| done]. by rewrite decide_True. }
  destruct (ProcessNode_terminates node Hacyclic) as [N HN].
  exists (S N). intros fuel Hfuel. destruct (HN fuel ltac:(lia) s) as [s' Hrun].
  exists s'. split; [done |]. split.
  - destruct fuel as [| fuel]; [lia |]. destruct node as [n |]; [| done].
    simpl. destruct (in_edge g n) as [edge |] eqn:Hedge; [| done].
    rewrite decide_True; [done |]. by eapply ProcessNode_marks_seen.
  - eapply visit_step_classified_once; [| done]. by eapply ProcessNode_steps.
Qed.

(** C6: for a node whose producing edge has an empty "deps" binding and
    whose depfile is absent or fails to load, the loader leaves the
    dependency vector empty and the classification does nothing but return:
    no call of the delegate, no change of the aggregates, no error.  The
    whole call of [ProcessNode] then amounts to the visit of the inputs, and
    on an acyclic graph it returns. *)
Theorem ProcessNode_no_depfile_no_gaps (n : Node) (edge : Edge) (s : Scanner) :
  in_edge g n = Some edge → GetBinding g edge "deps" = ""%string →
  (depfile g edge = NoDepfile ∨ ∃ err, depfile g edge = DepfileError err) →
  dep_nodes_output_
    (LoadDeps g {| loader_deps_log := deps_log_ s; dep_nodes_output_ := [] |} edge).2 = [] ∧
  (∀ fuel s1, classify_deps g fuel n edge s1 = Ok (note_classified n s1)) ∧
  (∀ s1, findings (note_classified n s1) = findings s1) ∧
  (n ∉ seen_ s → ∀ fuel,
     ProcessNode g (S fuel) (Some n) s =
     (s1 ← process_inputs (ProcessNode g fuel) (inputs_ g edge) (insert_seen n s);
      Ok (note_classified n s1))) ∧
  (acyclic g → ∃ N, ∀ fuel, N ≤ fuel → ∃ s', ProcessNode g fuel (Some n) s = Ok s').
Proof.
  intros Hedge Hbinding Hdepfile.
  assert (Hload : ∀ loader, LoadDeps g loader edge = (true, loader) ∨
                            LoadDeps g loader edge = (false, loader)).
  { intros loader. unfold LoadDeps. destruct Hdepfile as [-> | [err ->]]; auto. }
  assert (Hclassify : ∀ fuel s1, classify_deps g fuel n edge s1 = Ok (note_classified n s1)).
  { intros fuel s1. unfold classify_deps. rewrite Hbinding.
    rewrite decide_False by (by intros Hne; apply Hne).
    destruct (Hload {| loader_deps_log := deps_log_ (note_classified n s1);
                       dep_nodes_output_ := [] |}) as [-> | ->];
      simpl; by destruct s1. }
  split.
  { by destruct (Hload {| loader_deps_log := deps_log_ s; dep_nodes_output_ := [] |})
      as [-> | ->]. }
  split; [done |]. split; [done |]. split.
  - intros Hseen fuel. simpl. rewrite Hedge, decide_False by done.
    destruct (process_inputs _ _ _); simpl; [apply Hclassify | done | done].
  - intros Hacyclic. destruct (ProcessNode_terminates (Some n) Hacyclic) as [N HN].
    exists N. intros fuel Hfuel. by apply HN.
Qed.

(** C7: the scanner never writes to the dependency log.  The loader pushes
    the nodes of a parsed depfile onto its output vector and leaves the log
    it points to as it is; whatever roots are scanned, the log of the final
    scanner is the log of the initial one; and on an acyclic graph such a
    scan does return. *)
Theorem scanner_never_writes_deps_log :
  (∀ loader edge ins,
     let r := ProcessDepfileDeps g loader edge ins in
     loader_deps_log r.2 = loader_deps_log loader ∧
     dep_nodes_output_ r.2 =
       dep_nodes_output_ loader ++
       ((λ item, GetNode g (CanonicalizePath g item)) <$> ins)) ∧
  (∀ fuel roots s s', scan_roots g fuel roots s = Ok s' → deps_log_ s' = deps_log_ s) ∧
  (acyclic g → ∀ roots s, ∃ N, ∀ fuel, N ≤ fuel →
     ∃ s', scan_roots g fuel roots s = Ok s' ∧ deps_log_ s' = deps_log_ s).
Proof.
  split; [| split].
  - intros loader edge ins. by rewrite ProcessDepfileDeps_pushes.
  - intros fuel roots s s' Hrun. by apply scan_roots_steps in Hrun as [? _].
  - intros Hacyclic roots s. destruct (scan_roots_terminates roots Hacyclic) as [N HN].
    exists N. intros fuel Hfuel. destruct (HN fuel Hfuel s) as [s' Hrun].
    exists s'. split; [done |]. by apply scan_roots_steps in Hrun as [? _].
Qed.

End scanner.

(** ** The scenarios *)

Section scenarios.
Import Scenario.

Lemma gap_graph_acyclic : acyclic gap_graph.
Proof.
  apply (acyclic_by_rank _ (λ e, e)). intros e' e (input & Hin & He).
  destruct e as [| [| [| e]]]; simpl in Hin.
  - by apply elem_of_nil in Hin.
  - apply list_elem_of_singleton in Hin as ->. simpl in He. injection He as <-. lia.
  - apply list_elem_of_singleton in Hin as ->. done.
  - by apply elem_of_nil in Hin.
Qed.

Lemma shared_rule_graph_acyclic : acyclic shared_rule_graph.
Proof.
  apply (acyclic_by_rank _ (λ e, e)). intros e' e (input & Hin & He).
  simpl in Hin. by apply elem_of_nil in Hin.
Qed.

Lemma gap_graph_no_path_B_C : ¬ reachable gap_graph edge_B edge_C.
Proof.
  intros Hr. apply reachable_unfold in Hr as (input & e & Hin & He & _).
  simpl in Hin. apply list_elem_of_singleton in Hin as ->. done.
Qed.


End scenarios.



(** ** PrintStats *)

Lemma PrintStats_with_gaps s :
  nodes_missing_deps_ s ≠ ∅ →
  PrintStats s =
  ("Processed " +:+ pretty (size (seen_ s)) +:+ " nodes." +:+ endl +:+
   "Error: There are " +:+ pretty (missing_dep_path_count_ s) +:+
   " missing dependency paths." +:+ endl +:+
   pretty (size (nodes_missing_deps_ s)) +:+
   " targets had depfile dependencies on " +:+
   pretty (size (generated_nodes_ s)) +:+
   " distinct generated inputs (from " +:+
   pretty (size (generator_rules_ s)) +:+
   " rules)  without a non-depfile dep path to the generator." +:+ endl +:+
   "There might be build flakiness if any of the targets listed above are built alone, or not late enough, in a clean output directory." +:+
   endl)%string.
Proof.
  intros Hgaps. unfold PrintStats, HadMissingDeps.
  rewrite bool_decide_eq_false_2 by done. reflexivity.
Qed.

(** C8: the summary printed after the real-gap scenario.  The second line
    of the report has two spaces between "rules)" and "without", so it is
    not the line with a single space. *)
Theorem PrintStats_real_gap :
  ∃ s, ProcessNode Scenario.gap_graph 2 (Some Scenario.c_out) (new_scanner ∅) = Ok s ∧
       PrintStats s =
         ("Processed 1 nodes." +:+ endl +:+
          "Error: There are 1 missing dependency paths." +:+ endl +:+
          "1 targets had depfile dependencies on 1 distinct generated inputs (from 1 rules)  without a non-depfile dep path to the generator." +:+ endl +:+
          "There might be build flakiness if any of the targets listed above are built alone, or not late enough, in a clean output directory." +:+ endl)%string ∧
       PrintStats s ≠
         ("Processed 1 nodes." +:+ endl +:+
          "Error: There are 1 missing dependency paths." +:+ endl +:+
          "1 targets had depfile dependencies on 1 distinct generated inputs (from 1 rules) without a non-depfile dep path to the generator." +:+ endl +:+
          "There might be build flakiness if any of the targets listed above are built alone, or not late enough, in a clean output directory." +:+ endl)%string.
Proof.
  eexists. split; [vm_compute; reflexivity |].
  split; [by vm_compute |]. vm_compute. discriminate.
Qed.

(** ** The stat cache *)

Lemma c_str_append_NUL p q : c_str (p +:+ String "000"%char q) = c_str p.
Proof.
  induction p as [| a p IH]; simpl; [done |].
  destruct (decide (a = "000"%char)); [done | by rewrite IH].
Qed.

Lemma c_str_no_NUL k : (∀ p q, k ≠ (p +:+ String "000"%char q)%string) → c_str k = k.
Proof.
  induction k as [| a k IH]; intros Hk; simpl; [done |].
  destruct (decide (a = "000"%char)) as [-> | Hne].
  - by destruct (Hk EmptyString k).
  - rewrite IH; [done |]. intros p q ->. by destruct (Hk (String a p) q).
Qed.

Lemma c_str_spec s : is_c_string_of (c_str s) s.
Proof.
  induction s as [| a s [Hfree Hs]]; simpl.
  - split; [| by left]. intros [| b p] q; discriminate.
  - destruct (decide (a = "000"%char)) as [-> | Hne].
    + split; [intros [| b p] q; discriminate |]. right. by exists s.
    + split.
      * intros [| b p] q; simpl; intros [= Ha Hrest]; [done |]. by eapply Hfree.
      * destruct Hs as [Hs | [rest Hs]].
        -- left. by f_equal.
        -- right. exists rest.
           change (String a s = String a (c_str s +:+ String "000"%char rest)).
           by f_equal.
Qed.

Lemma c_str_unique k s : is_c_string_of k s → c_str s = k.
Proof.
  intros [Hfree [-> | [rest ->]]].
  - by apply c_str_no_NUL.
  - rewrite c_str_append_NUL. by apply c_str_no_NUL.
Qed.

(** C9: [GetFile] is a caching constructor.  The table is keyed by the C
    string [key] of the path (the path itself when it holds no NUL).  For a
    constructor that keeps that C string in [path_], two successive calls
    with one path return the same pointer and the second leaves the cache
    as it is; a call for a path whose key is not in the table adds exactly
    one entry (for that key, the other keys keep their values) and one
    object; a call for a path whose key is in the table returns the cached
    pointer and leaves the cache unchanged. *)
Theorem GetFile_caches (new_FileStat : string → FileStat) (c : StatCache)
    (path key : string) :
  is_c_string_of key path →
  is_c_string_of key (path_ (new_FileStat path)) →
  let '(file1, c1) := GetFile new_FileStat c path in
  let '(file2, c2) := GetFile new_FileStat c1 path in
  file1 = file2 ∧ c2 = c1 ∧ paths_ c1 !! key = Some file1 ∧
  match paths_ c !! key with
  | None =>
    paths_ c1 = <[key := file1]> (paths_ c) ∧
    size (paths_ c1) = S (size (paths_ c)) ∧
    (∀ k, k ≠ key → paths_ c1 !! k = paths_ c !! k) ∧
    heap c1 = heap c ++ [new_FileStat path]
  | Some file => file1 = file ∧ c1 = c
  end.
Proof.
  intros Hkey%c_str_unique Hctor%c_str_unique.
  unfold GetFile at 1. rewrite Hkey.
  destruct (paths_ c !! key) as [file |] eqn:Hlookup.
  - unfold GetFile. rewrite Hkey, Hlookup. done.
  - unfold GetFile. simpl. rewrite Hctor, Hkey, lookup_insert_eq.
    split; [done |]. split; [done |]. split; [done |]. split; [done |].
    split; [by apply map_size_insert_None |]. split; [| done].
    intros k Hk. by rewrite lookup_insert_ne.
Qed.

Section spellcheck_facts.
Variable EditDistance : string → string → bool → Z → Z.

Lemma spellcheck_fold c path l : ∀ acc,
  let r := foldl (spellcheck_step EditDistance c path) acc l in
  (r.1 ≤ acc.1)%Z ∧
  (∀ key file, (key, file) ∈ l → is_Some (file_node c file) →
               (r.1 ≤ distance_to EditDistance path key)%Z) ∧
  (r = acc ∨
   (r.1 < acc.1)%Z ∧
   ∃ key file, (key, file) ∈ l ∧ r.2 = Some file ∧ is_Some (file_node c file) ∧
               distance_to EditDistance path key = r.1).
Proof.
  induction l as [| [key0 file0] rest IH]; intros acc; simpl.
  - split; [lia |]. split; [| by left]. intros key file Hin. by apply elem_of_nil in Hin.
  - destruct (IH (spellcheck_step EditDistance c path acc (key0, file0)))
      as (Hle & Hmin & Hres).
    set (r := foldl _ _ rest) in *.
    unfold spellcheck_step in Hle, Hres at 1 2. simpl in Hle, Hres.
    destruct (bool_decide (distance_to EditDistance path key0 < acc.1)%Z) eqn:Hlt;
      [apply bool_decide_eq_true in Hlt | apply bool_decide_eq_false in Hlt];
      (destruct (bool_decide (is_Some (file_node c file0))) eqn:Hnode;
        [apply bool_decide_eq_true in Hnode | apply bool_decide_eq_false in Hnode]);
      simpl in Hle, Hres.
    + split; [lia |]. split.
      * intros key file Hin Hsome. apply elem_of_cons in Hin as [[= -> ->] | Hin];
          [lia | exact (Hmin _ _ Hin Hsome)].
      * right. split; [destruct Hres as [-> | [? _]]; simpl; lia |].
        destruct Hres as [-> | (_ & key & file & Hin & Hrest)].
        -- exists key0, file0. split; [left | done].
        -- exists key, file. split; [by right | done].
    + split; [lia |]. split.
      * intros key file Hin Hsome. apply elem_of_cons in Hin as [[= -> ->] | Hin];
          [done | exact (Hmin _ _ Hin Hsome)].
      * destruct Hres as [-> | (Hlt' & key & file & Hin & Hrest)]; [by left | right].
        split; [done |]. exists key, file. split; [by right | done].
    + split; [lia |]. split.
      * intros key file Hin Hsome. apply elem_of_cons in Hin as [[= -> ->] | Hin];
          [lia | exact (Hmin _ _ Hin Hsome)].
      * destruct Hres as [-> | (Hlt' & key & file & Hin & Hrest)]; [by left | right].
        split; [done |]. exists key, file. split; [by right | done].
    + split; [lia |]. split.
      * intros key file Hin Hsome. apply elem_of_cons in Hin as [[= -> ->] | Hin];
          [done | exact (Hmin _ _ Hin Hsome)].
      * destruct Hres as [-> | (Hlt' & key & file & Hin & Hrest)]; [by left | right].
        split; [done |]. exists key, file. split; [by right | done].
Qed.

Lemma SpellcheckFile_by_distance_to (c : StatCache) (path : string) :
  match SpellcheckFile EditDistance c path with
  | None =>
    ∀ key file, paths_ c !! key = Some file → is_Some (file_node c file) →
                (kMaxValidEditDistance < distance_to EditDistance path key)%Z
  | Some result =>
    ∃ key, paths_ c !! key = Some result ∧ is_Some (file_node c result) ∧
           (distance_to EditDistance path key ≤ kMaxValidEditDistance)%Z ∧
           ∀ key' file', paths_ c !! key' = Some file' →
                         is_Some (file_node c file') →
                         (distance_to EditDistance path key ≤
                          distance_to EditDistance path key')%Z
  end.
Proof.
  unfold SpellcheckFile.
  destruct (spellcheck_fold c path (map_to_list (paths_ c))
              ((kMaxValidEditDistance + 1)%Z, None)) as (Hle & Hmin & Hres).
  set (r := foldl _ _ _) in *. simpl in Hle, Hres. unfold kMaxValidEditDistance in *.
  destruct Hres as [-> | (Hlt & key & file & Hin & Hr & Hnode & Hdist)].
  - simpl. intros key file Hlookup Hsome.
    apply elem_of_map_to_list in Hlookup. specialize (Hmin _ _ Hlookup Hsome).
    simpl in Hmin. lia.
  - rewrite Hr. exists key. apply elem_of_map_to_list in Hin.
    split; [done |]. split; [done |]. split; [lia |].
    intros key' file' Hlookup Hsome. apply elem_of_map_to_list in Hlookup.
    specialize (Hmin _ _ Hlookup Hsome). lia.
Qed.

Lemma file_node_is_Some c file :
  is_Some (file_node c file) ↔ ∃ fs n, heap c !! file = Some fs ∧ node_ fs = Some n.
Proof.
  unfold file_node. split.
  - intros [n Hn]. destruct (heap c !! file) as [fs |]; [| done]. by exists fs, n.
  - intros (fs & n & -> & Hn). by exists n.
Qed.

(** C10: [SpellcheckFile] returns NULL exactly when no cached entry has
    both a node and a distance [EditDistance(key, path, true, 3)] of at most
    3 to the queried path; a non-NULL result is the [FileStat] of a cached
    key, has a non-null [node_], lies at a distance of at most 3, and no
    cached entry with a node lies nearer. *)
Theorem SpellcheckFile_nearest (c : StatCache) (path : string) :
  match SpellcheckFile EditDistance c path with
  | None =>
    ∀ key file fs n,
      paths_ c !! key = Some file → heap c !! file = Some fs → node_ fs = Some n →
      (3 < EditDistance key path true 3)%Z
  | Some result =>
    ∃ key fs n,
      paths_ c !! key = Some result ∧
      heap c !! result = Some fs ∧ node_ fs = Some n ∧
      (EditDistance key path true 3 ≤ 3)%Z ∧
      ∀ key' file' fs' n',
        paths_ c !! key' = Some file' → heap c !! file' = Some fs' →
        node_ fs' = Some n' →
        (EditDistance key path true 3 ≤ EditDistance key' path true 3)%Z
  end.
Proof.
  pose proof (SpellcheckFile_by_distance_to c path) as H.
  destruct (SpellcheckFile EditDistance c path) as [result |].
  - destruct H as (key & Hkey & Hnode & Hle & Hmin).
    apply file_node_is_Some in Hnode as (fs & n & Hfs & Hn).
    exists key, fs, n. split; [done |]. split; [done |]. split; [done |].
    split; [exact Hle |].
    intros key' file' fs' n' Hkey' Hfs' Hn'.
    apply (Hmin key' file' Hkey'). apply file_node_is_Some. eauto.
  - intros key file fs n Hkey Hfs Hn.
    apply (H key file Hkey). apply file_node_is_Some. eauto.
Qed.

End spellcheck_facts.

(** ** The theorems at concrete inputs *)

Section instances.
Import Scenario.

Lemma PathExistsBetween_memo_consistent_gap_graph :
  acyclic gap_graph ∧ memo_ok gap_graph ∅ ∧
  ∃ N, ∀ fuel, N ≤ fuel →
    ∃ b m', PathExistsBetween gap_graph fuel edge_A edge_B ∅ = Ok (b, m') ∧
            (b = true ↔ has_reaching_input gap_graph edge_A edge_B) ∧
            ((∀ input, input ∈ inputs_ gap_graph edge_B →
                       in_edge gap_graph input = None) → b = false) ∧
            reachable_fresh gap_graph fuel edge_A edge_B = Ok b ∧
            memo_ok gap_graph m'.
Proof.
  split; [exact gap_graph_acyclic |]. split; [exact (memo_ok_empty gap_graph) |].
  exact (PathExistsBetween_memo_consistent gap_graph edge_A edge_B ∅
           gap_graph_acyclic (memo_ok_empty gap_graph)).
Defined.



Lemma shared_rule_deps_paths :
  ∀ d, d ∈ [0; 1] → path shared_rule_graph d ≠ "build.ninja"%string.
Proof.
  intros d Hd. apply elem_of_cons in Hd as [-> | Hd]; [done |].
  apply list_elem_of_singleton in Hd as ->. done.
Qed.

Lemma shared_rule_missing_edge : ∃ e, missing_edge shared_rule_graph 2 [0; 1] e.
Proof.
  exists 0. split.
  - exists 0. split; [left | done].
  - intros Hr. apply reachable_unfold in Hr as (input & e & Hin & _).
    by apply elem_of_nil in Hin.
Qed.

Lemma ProcessNodeDeps_counts_rule_names_shared_rule :
  ∃ N, ∀ fuel, N ≤ fuel →
    ∃ s' (rule_names : gset string),
      ProcessNodeDeps shared_rule_graph fuel 2 [0; 1] (new_scanner shared_rule_log) = Ok s' ∧
      (∀ r, r ∈ rule_names ↔
            ∃ e, missing_edge shared_rule_graph 2 [0; 1] e ∧
                 name shared_rule_graph (rule shared_rule_graph e) = r) ∧
      missing_dep_path_count_ s' =
        int_of_Z (missing_dep_path_count_ (new_scanner shared_rule_log) +
                  Z.of_nat (size rule_names)) ∧
      ((- 2 ^ 31 ≤ missing_dep_path_count_ (new_scanner shared_rule_log) +
                   Z.of_nat (size rule_names) < 2 ^ 31)%Z →
       missing_dep_path_count_ s' =
         (missing_dep_path_count_ (new_scanner shared_rule_log) +
          Z.of_nat (size rule_names))%Z) ∧
      nodes_missing_deps_ s' = {[2]} ∪ nodes_missing_deps_ (new_scanner shared_rule_log).
Proof.
  exact (ProcessNodeDeps_counts_rule_names shared_rule_graph 2 2 [0; 1]
           (new_scanner shared_rule_log) shared_rule_graph_acyclic
           (memo_ok_empty shared_rule_graph) eq_refl shared_rule_deps_paths
           shared_rule_missing_edge).
Defined.

(** Two missing edges that share the rule "gen": two reports, one problem
    counted, one generator rule. *)
Example shared_rule_counts_once :
  ∃ s', ProcessNode shared_rule_graph 2 (Some 2) (new_scanner shared_rule_log) = Ok s' ∧
        delegate_calls s' = [OnMissingDep 2 "x.h" 0; OnMissingDep 2 "y.h" 0] ∧
        missing_dep_path_count_ s' = 1%Z ∧
        size (generator_rules_ s') = 1.
Proof. eexists. split; [vm_compute; reflexivity |]. by vm_compute. Qed.

Lemma ProcessNodeDeps_build_ninja_gap_graph :
  (∃ d, d ∈ [b_o; build_ninja] ∧ path gap_graph d = "build.ninja"%string) ∧
  ProcessNodeDeps gap_graph 1 c_out [b_o; build_ninja] (new_scanner ∅) =
  Ok (new_scanner ∅).
Proof.
  assert (H : ∃ d, d ∈ [b_o; build_ninja] ∧ path gap_graph d = "build.ninja"%string).
  { exists build_ninja. split; [right; left | reflexivity]. }
  split; [exact H |].
  exact (ProcessNodeDeps_build_ninja gap_graph 1 c_out [b_o; build_ninja]
           (new_scanner ∅) H).
Defined.

Lemma new_scanner_classified_once log : classified_once (new_scanner log).
Proof.
  split; [constructor |]. intros n Hn. by apply elem_of_nil in Hn.
Qed.

Lemma ProcessNode_idempotent_gap_graph :
  (∀ fuel, ProcessNode gap_graph (S fuel) None (new_scanner ∅) = Ok (new_scanner ∅)) ∧
  (∀ fuel n, in_edge gap_graph n = None →
             ProcessNode gap_graph (S fuel) (Some n) (new_scanner ∅) = Ok (new_scanner ∅)) ∧
  (∀ fuel n, n ∈ seen_ (new_scanner ∅) →
             ProcessNode gap_graph (S fuel) (Some n) (new_scanner ∅) = Ok (new_scanner ∅)) ∧
  ∃ N, ∀ fuel, N ≤ fuel →
    ∃ s', ProcessNode gap_graph fuel (Some c_out) (new_scanner ∅) = Ok s' ∧
          ProcessNode gap_graph fuel (Some c_out) s' = Ok s' ∧
          classified_once s'.
Proof.
  exact (ProcessNode_idempotent gap_graph (Some c_out) (new_scanner ∅)
           gap_graph_acyclic (new_scanner_classified_once ∅)).
Defined.

Lemma ProcessNode_no_depfile_no_gaps_gap_graph :
  dep_nodes_output_
    (LoadDeps gap_graph
       {| loader_deps_log := deps_log_ (new_scanner ∅); dep_nodes_output_ := [] |}
       edge_B).2 = [] ∧
  (∀ fuel s1, classify_deps gap_graph fuel b_o edge_B s1 = Ok (note_classified b_o s1)) ∧
  (∀ s1, findings (note_classified b_o s1) = findings s1) ∧
  (b_o ∉ seen_ (new_scanner ∅) → ∀ fuel,
     ProcessNode gap_graph (S fuel) (Some b_o) (new_scanner ∅) =
     (s1 ← process_inputs (ProcessNode gap_graph fuel) (inputs_ gap_graph edge_B)
                          (insert_seen b_o (new_scanner ∅));
      Ok (note_classified b_o s1))) ∧
  (acyclic gap_graph → ∃ N, ∀ fuel, N ≤ fuel →
     ∃ s', ProcessNode gap_graph fuel (Some b_o) (new_scanner ∅) = Ok s').
Proof.
  exact (ProcessNode_no_depfile_no_gaps gap_graph b_o edge_B (new_scanner ∅)
           eq_refl eq_refl (or_introl eq_refl)).
Defined.

Lemma scanner_never_writes_deps_log_gap_graph :
  ∃ N, ∀ fuel, N ≤ fuel →
    ∃ s', scan_roots gap_graph fuel [Some c_out; Some b_o; None] (new_scanner ∅) = Ok s' ∧
          deps_log_ s' = deps_log_ (new_scanner ∅).
Proof.
  exact (proj2 (proj2 (scanner_never_writes_deps_log gap_graph)) gap_graph_acyclic
           [Some c_out; Some b_o; None] (new_scanner ∅)).
Defined.

Lemma GetFile_caches_new_cc :
  let '(file1, c1) := GetFile FileStat_with_path small_cache "new.cc" in
  let '(file2, c2) := GetFile FileStat_with_path c1 "new.cc" in
  file1 = file2 ∧ c2 = c1 ∧ paths_ c1 !! "new.cc"%string = Some file1 ∧
  match paths_ small_cache !! "new.cc"%string with
  | None =>
    paths_ c1 = <["new.cc"%string := file1]> (paths_ small_cache) ∧
    size (paths_ c1) = S (size (paths_ small_cache)) ∧
    (∀ k, k ≠ "new.cc"%string → paths_ c1 !! k = paths_ small_cache !! k) ∧
    heap c1 = heap small_cache ++ [FileStat_with_path "new.cc"]
  | Some file => file1 = file ∧ c1 = small_cache
  end.
Proof.
  exact (GetFile_caches FileStat_with_path small_cache "new.cc" "new.cc"
           (c_str_spec "new.cc") (c_str_spec "new.cc")).
Defined.

Example GetFile_twice :
  (GetFile FileStat_with_path small_cache "new.cc").1 = 3 ∧
  (GetFile FileStat_with_path
     (GetFile FileStat_with_path small_cache "new.cc").2 "new.cc").1 = 3 ∧
  (GetFile FileStat_with_path small_cache "main.h").1 = 1.
Proof. by vm_compute. Qed.

(** A path with an embedded NUL is looked up by what precedes the NUL: with
    "a" cached, "a", NUL, "b" is answered with the cached entry and nothing
    is inserted. *)
Example GetFile_embedded_NUL :
  let c := (GetFile FileStat_with_path empty_cache "a").2 in
  GetFile FileStat_with_path c a_NUL_b = (0, c) ∧
  is_c_string_of "a" a_NUL_b.
Proof. split; [by vm_compute | exact (c_str_spec a_NUL_b)]. Qed.

Example SpellcheckFile_small_cache :
  SpellcheckFile edit_distance small_cache "main.c" = Some 0 ∧
  SpellcheckFile edit_distance small_cache "main.hh" = Some 0 ∧
  SpellcheckFile edit_distance small_cache "zzzzzzzzz" = None.
Proof. by vm_compute. Qed.

End instances.

(** * Part III: further properties of the code *)

Section memo_facts.
Context (g : Graph).

Lemma memo_extends_refl (m : gmap nat (gmap nat bool)) : memo_extends m m.
Proof. intros from inner H. by exists inner. Qed.

Lemma memo_extends_trans (m1 m2 m3 : gmap nat (gmap nat bool)) :
  memo_extends m1 m2 → memo_extends m2 m3 → memo_extends m1 m3.
Proof.
  intros H12 H23 from inner H. destruct (H12 _ _ H) as (inner2 & H2 & Hsub2).
  destruct (H23 _ _ H2) as (inner3 & H3 & Hsub3).
  exists inner3. split; [done |]. by transitivity inner2.
Qed.

Lemma map_insert_new_subseteq (to : nat) (b : bool) (inner : gmap nat bool) :
  inner ⊆ map_insert_new to b inner.
Proof.
  unfold map_insert_new. destruct (inner !! to) eqn:Hto; [done |].
  by apply insert_subseteq.
Qed.

Lemma scan_inputs_extends rec from ins :
  (∀ e m b m', rec e m = Ok (b, m') → memo_extends m m') →
  ∀ m b m', scan_inputs g rec from ins m = Ok (b, m') → memo_extends m m'.
Proof.
  intros Hrec. induction ins as [| input rest IH]; intros m b m' Hrun; simpl in Hrun.
  - injection Hrun as <- <-. apply memo_extends_refl.
  - destruct (in_edge g input) as [e |]; [| by eapply IH].
    destruct (decide (e = from)).
    { injection Hrun as <- <-. apply memo_extends_refl. }
    destruct (rec e m) as [[r m1] | |] eqn:Hr; simpl in Hrun; try done.
    apply Hrec in Hr. destruct r.
    + by injection Hrun as <- <-.
    + eapply memo_extends_trans; [exact Hr | by eapply IH].
Qed.

Lemma PathExistsBetween_extends fuel : ∀ from to m b m',
  PathExistsBetween g fuel from to m = Ok (b, m') → memo_extends m m'.
Proof.
  induction fuel as [| fuel IH]; intros from to m b m' Hrun; [done |].
  simpl in Hrun.
  assert (Hsearch : ∀ m1, memo_extends m m1 →
    ('(found, m2) ← scan_inputs g (PathExistsBetween g fuel from) from (inputs_ g to) m1;
     Ok (found, alter (map_insert_new to found) from m2)) = Ok (b, m') →
    memo_extends m m').
  { intros m1 Hm1 Hs.
    destruct (scan_inputs _ _ from (inputs_ g to) m1) as [[found m2] | |] eqn:Hscan;
      simpl in Hs; try done.
    injection Hs as <- <-.
    apply (scan_inputs_extends _ _ _ (IH from)) in Hscan.
    eapply memo_extends_trans; [exact Hm1 |].
    eapply memo_extends_trans; [exact Hscan |].
    intros f inner Hf. destruct (decide (from = f)) as [<- | Hne].
    - exists (map_insert_new to found inner). rewrite lookup_alter_eq, Hf.
      split; [done | apply map_insert_new_subseteq].
    - exists inner. by rewrite lookup_alter_ne. }
  destruct (m !! from) as [inner |] eqn:Hfrom.
  - destruct (inner !! to) as [b0 |].
    + injection Hrun as <- <-. apply memo_extends_refl.
    + apply Hsearch in Hrun; [done | apply memo_extends_refl].
  - apply Hsearch in Hrun; [done |].
    intros f inner Hf. exists inner. split; [| done].
    rewrite lookup_insert_ne; [done |]. intros ->. congruence.
Qed.

(** X2: the memo only grows.  Whatever a query does, every answer that was
    cached before it is cached after it, with the same value. *)
Theorem PathExistsBetween_keeps_answers fuel from to (m : gmap nat (gmap nat bool)) b m' :
  PathExistsBetween g fuel from to m = Ok (b, m') →
  ∀ from0 to0 inner b0,
    m !! from0 = Some inner → inner !! to0 = Some b0 →
    ∃ inner', m' !! from0 = Some inner' ∧ inner' !! to0 = Some b0.
Proof.
  intros Hrun from0 to0 inner b0 Hfrom Hto.
  destruct (PathExistsBetween_extends _ _ _ _ _ _ Hrun _ _ Hfrom) as (inner' & H' & Hsub).
  exists inner'. split; [done |]. by eapply lookup_weaken.
Qed.

Lemma PathExistsBetween_caches fuel from to (m : gmap nat (gmap nat bool)) b m' :
  memo_ok g m → PathExistsBetween g fuel from to m = Ok (b, m') →
  ∃ inner', m' !! from = Some inner' ∧ inner' !! to = Some b.
Proof.
  intros Hm Hrun. destruct fuel as [| fuel]; [done |].
  destruct (PathExistsBetween_sound g _ _ _ _ _ _ Hm Hrun) as [Hb Hm'].
  simpl in Hrun.
  assert (Hsearch : ∀ m1, is_Some (m1 !! from) →
    ('(found, m2) ← scan_inputs g (PathExistsBetween g fuel from) from (inputs_ g to) m1;
     Ok (found, alter (map_insert_new to found) from m2)) = Ok (b, m') →
    ∃ inner', m' !! from = Some inner' ∧ inner' !! to = Some b).
  { intros m1 [inner1 H1] Hs.
    destruct (scan_inputs _ _ from (inputs_ g to) m1) as [[found m2] | |] eqn:Hscan;
      simpl in Hs; try done.
    injection Hs as -> <-.
    apply (scan_inputs_extends _ _ _ (PathExistsBetween_extends fuel from)) in Hscan.
    destruct (Hscan _ _ H1) as (inner2 & H2 & _).
    exists (map_insert_new to b inner2). rewrite lookup_alter_eq, H2.
    split; [done |].
    pose proof (Hm' from to (map_insert_new to b inner2) (negb b)) as Hneg.
    rewrite lookup_alter_eq, H2 in Hneg. specialize (Hneg eq_refl).
    unfold map_insert_new in *. destruct (inner2 !! to) as [b0 |] eqn:Hto.
    - destruct (decide (b0 = b)) as [-> | Hne]; [done |].
      assert (b0 = negb b) as -> by (by destruct b0, b).
      specialize (Hneg Hto). destruct b; simpl in Hneg.
      + destruct Hb as [Hb _]. specialize (Hb eq_refl). by apply Hneg in Hb.
      + destruct Hneg as [Hneg _]. specialize (Hneg eq_refl). by apply Hb in Hneg.
    - apply lookup_insert_eq. }
  destruct (m !! from) as [inner |] eqn:Hfrom.
  - destruct (inner !! to) as [b0 |] eqn:Hto.
    + injection Hrun as <- <-. by exists inner.
    + apply Hsearch in Hrun; [done | by rewrite Hfrom].
  - apply Hsearch in Hrun; [done |]. by rewrite lookup_insert_eq.
Qed.

(** X1: a repeated query is answered from the memo.  After
    [PathExistsBetween(from, to)] has returned [b] (from a memo that holds
    only answers of the definition), the same query returns [b] again at
    once, without any search, and leaves the memo as it is. *)
Theorem PathExistsBetween_memo_hit fuel from to (m : gmap nat (gmap nat bool)) b m' :
  memo_ok g m → PathExistsBetween g fuel from to m = Ok (b, m') →
  ∀ fuel', PathExistsBetween g (S fuel') from to m' = Ok (b, m').
Proof.
  intros Hm Hrun fuel'.
  destruct (PathExistsBetween_caches _ _ _ _ _ _ Hm Hrun) as (inner' & H1 & H2).
  simpl. by rewrite H1, H2.
Qed.

Lemma Acc_irreflexive {A} (R : A → A → Prop) x : Acc R x → ¬ R x x.
Proof. induction 1 as [x _ IH]. intros H. exact (IH x H H). Qed.

Lemma reachable_clos_trans from to :
  reachable g from to → Relation_Operators.clos_trans _ (feeds g) from to.
Proof.
  induction 1 as [to input Hin He | to input e Hin He _ IH].
  - apply Relation_Operators.t_step. by exists input.
  - eapply Relation_Operators.t_trans; [exact IH |].
    apply Relation_Operators.t_step. by exists input.
Qed.

Lemma acyclic_no_self_path e : acyclic g → ¬ reachable g e e.
Proof.
  intros Hacyclic Hr. apply reachable_clos_trans in Hr.
  eapply Acc_irreflexive; [| exact Hr].
  by apply wf_clos_trans.
Qed.

End memo_facts.

Section scanner_facts.
Context (g : Graph).

(** ** ProcessNodeDeps, whatever the memo holds *)

Lemma find_missing_deps_sublist fuel edge : ∀ des m missing m',
  find_missing_deps g fuel edge des m = Ok (missing, m') → sublist missing des.
Proof.
  induction des as [| de rest IH]; intros m missing m' Hrun; simpl in Hrun.
  - by injection Hrun as <- <-.
  - destruct edge as [to |]; [| done].
    destruct (PathExistsBetween g fuel de to m) as [[found m1] | |]; simpl in Hrun; try done.
    destruct (find_missing_deps g fuel (Some to) rest m1) as [[missing1 m2] | |] eqn:Hrest;
      simpl in Hrun; try done.
    injection Hrun as <- <-. apply IH in Hrest.
    destruct found; [by apply sublist_cons | by apply sublist_skip].
Qed.

Lemma ProcessNodeDeps_shape fuel node dep_nodes s s' :
  ProcessNodeDeps g fuel node dep_nodes s = Ok s' →
  s' = s ∨
  ∃ missing m',
    (∀ d, d ∈ dep_nodes → path g d ≠ "build.ninja"%string) ∧
    NoDup missing ∧
    (∀ e, e ∈ missing → ∃ d, d ∈ dep_nodes ∧ in_edge g d = Some e) ∧
    s' = match missing with
         | [] => set_adjacency_map m' s
         | _ :: _ =>
           let r := foldl (report_pair g node) (∅, set_adjacency_map m' s)
                          (reported g dep_nodes missing) in
           count_and_flag node (size r.1) r.2
         end.
Proof.
  unfold ProcessNodeDeps. intros Hrun.
  destruct (collect_deplog_edges g dep_nodes ∅) as [edges |] eqn:Hcollect;
    [| left; by injection Hrun as <-].
  destruct (find_missing_deps _ _ _ _ _) as [[missing m'] | |] eqn:Hfind;
    simpl in Hrun; try done.
  right. exists missing, m'. apply find_missing_deps_sublist in Hfind. split.
  { intros d Hd Hp.
    assert (collect_deplog_edges g dep_nodes ∅ = None) as Hnone
      by (apply collect_deplog_edges_None; eauto).
    congruence. }
  split; [eapply sublist_NoDup; [apply NoDup_set_order | done] |]. split.
  { intros e He. eapply elem_of_sublist in He; [| exact Hfind].
    apply elem_of_set_order in He.
    apply (collect_deplog_edges_Some g _ _ _ Hcollect) in He as [He | He]; [| done].
    by apply not_elem_of_empty in He. }
  destruct missing as [| item rest]; [by injection Hrun as <- |].
  rewrite report_missing_flat in Hrun.
  destruct (foldl _ _ _) as [names s2]. by injection Hrun as <-.
Qed.

Lemma reported_nonempty dep_nodes item rest :
  (∃ d, d ∈ dep_nodes ∧ in_edge g d = Some item) →
  reported g dep_nodes (item :: rest) ≠ [].
Proof.
  intros (d & Hd & He) Hnil.
  assert ((d, item) ∈ reported g dep_nodes (item :: rest)) as Hin.
  { unfold reported. apply list_elem_of_bind. exists item. split; [| left].
    apply list_elem_of_fmap. exists d. split; [done |]. by apply list_elem_of_filter. }
  rewrite Hnil in Hin. by apply elem_of_nil in Hin.
Qed.

Lemma elem_of_reported dep_nodes missing d e :
  (d, e) ∈ reported g dep_nodes missing ↔
  e ∈ missing ∧ d ∈ dep_nodes ∧ in_edge g d = Some e.
Proof.
  unfold reported. rewrite list_elem_of_bind. split.
  - intros (item & Hin & Hitem). apply list_elem_of_fmap in Hin as (d' & [= -> ->] & Hd').
    apply list_elem_of_filter in Hd' as [? ?]. done.
  - intros (He & Hd & Hde). exists e. split; [| done].
    apply list_elem_of_fmap. exists d. split; [done |]. by apply list_elem_of_filter.
Qed.

(** ** Lifting a step property from ProcessNodeDeps to a whole session *)

Section lift.
Variable R : Scanner → Scanner → Prop.
Hypothesis R_refl : ∀ s, R s s.
Hypothesis R_trans : ∀ s1 s2 s3, R s1 s2 → R s2 s3 → R s1 s3.
Hypothesis R_insert_seen : ∀ n s, R s (insert_seen n s).
Hypothesis R_note_classified : ∀ n s, R s (note_classified n s).
Hypothesis R_ProcessNodeDeps : ∀ fuel node edge dep_nodes s s',
  in_edge g node = Some edge →
  ProcessNodeDeps g fuel node dep_nodes s = Ok s' → R s s'.

Lemma classify_deps_lift fuel n edge s s' :
  in_edge g n = Some edge → classify_deps g fuel n edge s = Ok s' → R s s'.
Proof.
  unfold classify_deps. intros Hedge Hrun.
  apply (R_trans _ (note_classified n s)); [apply R_note_classified |].
  destruct (decide (GetBinding g edge "deps" ≠ ""%string)).
  - destruct (GetDeps _ n) as [deps |].
    + by eapply R_ProcessNodeDeps.
    + injection Hrun as <-. apply R_refl.
  - pose proof (LoadDeps_deps_log g
      {| loader_deps_log := deps_log_ (note_classified n s); dep_nodes_output_ := [] |}
      edge) as Hlog.
    destruct (LoadDeps g _ edge) as [ok loader]. simpl in Hlog. rewrite Hlog in Hrun.
    change (deps_log_ s) with (deps_log_ (note_classified n s)) in Hrun.
    rewrite set_deps_log_same in Hrun.
    destruct (dep_nodes_output_ loader).
    + injection Hrun as <-. apply R_refl.
    + by eapply R_ProcessNodeDeps.
Qed.

Lemma process_inputs_lift (rec : option nat → Scanner → result Scanner) ins :
  (∀ node s s', rec node s = Ok s' → R s s') →
  ∀ s s', process_inputs rec ins s = Ok s' → R s s'.
Proof.
  intros Hrec. induction ins as [| i rest IH]; intros s s' Hrun; simpl in Hrun.
  - injection Hrun as <-. apply R_refl.
  - destruct (rec (Some i) s) as [s1 | |] eqn:Hi; simpl in Hrun; try done.
    eapply R_trans; [by eapply Hrec | by apply IH].
Qed.

Lemma ProcessNode_lift fuel : ∀ node s s',
  ProcessNode g fuel node s = Ok s' → R s s'.
Proof.
  induction fuel as [| fuel IH]; intros node s s' Hrun; [done |]. simpl in Hrun.
  destruct node as [n |]; [| injection Hrun as <-; apply R_refl].
  destruct (in_edge g n) as [edge |] eqn:Hedge; [| injection Hrun as <-; apply R_refl].
  destruct (decide (n ∈ seen_ s)); [injection Hrun as <-; apply R_refl |].
  destruct (process_inputs _ _ _) as [s1 | |] eqn:Hins; simpl in Hrun; try done.
  apply (R_trans _ (insert_seen n s)); [apply R_insert_seen |].
  apply (R_trans _ s1); [by eapply process_inputs_lift | by eapply classify_deps_lift].
Qed.

Lemma scan_roots_lift fuel roots : ∀ s s',
  scan_roots g fuel roots s = Ok s' → R s s'.
Proof.
  induction roots as [| root rest IH]; intros s s' Hrun; simpl in Hrun.
  - injection Hrun as <-. apply R_refl.
  - destruct (ProcessNode g fuel root s) as [s1 | |] eqn:Hroot; simpl in Hrun; try done.
    eapply R_trans; [by eapply ProcessNode_lift | by apply IH].
Qed.

End lift.

(** ** No fault in a session *)

Lemma scan_inputs_no_fault (rec : nat → gmap nat (gmap nat bool) → result (bool * gmap nat (gmap nat bool))) from ins :
  (∀ e m, rec e m ≠ NullDeref) → ∀ m, scan_inputs g rec from ins m ≠ NullDeref.
Proof.
  intros Hrec. induction ins as [| input rest IH]; intros m; simpl; [done |].
  destruct (in_edge g input) as [e |]; [| apply IH].
  destruct (decide (e = from)); [done |].
  destruct (rec e m) as [[r m1] | |] eqn:Hr; simpl; [| done | by apply Hrec in Hr].
  destruct r; [done | apply IH].
Qed.

Lemma PathExistsBetween_no_fault fuel : ∀ from to m,
  PathExistsBetween g fuel from to m ≠ NullDeref.
Proof.
  induction fuel as [| fuel IH]; intros from to m; [done |]. simpl.
  assert (Hsearch : ∀ m1,
    ('(found, m2) ← scan_inputs g (PathExistsBetween g fuel from) from (inputs_ g to) m1;
     Ok (found, alter (map_insert_new to found) from m2)) ≠ NullDeref).
  { intros m1. pose proof (scan_inputs_no_fault _ from (inputs_ g to) (IH from) m1).
    by destruct (scan_inputs _ _ _ _ _) as [[found m2] | |]. }
  destruct (m !! from) as [inner |]; [| apply Hsearch].
  destruct (inner !! to); [done | apply Hsearch].
Qed.

Lemma find_missing_deps_no_fault fuel to : ∀ des m,
  find_missing_deps g fuel (Some to) des m ≠ NullDeref.
Proof.
  induction des as [| de rest IH]; intros m; simpl; [done |].
  pose proof (PathExistsBetween_no_fault fuel de to m).
  destruct (PathExistsBetween g fuel de to m) as [[found m1] | |]; simpl; try done.
  pose proof (IH m1).
  by destruct (find_missing_deps g fuel (Some to) rest m1) as [[missing m2] | |].
Qed.

Lemma ProcessNodeDeps_no_fault fuel node edge dep_nodes s :
  in_edge g node = Some edge → ProcessNodeDeps g fuel node dep_nodes s ≠ NullDeref.
Proof.
  intros Hedge. unfold ProcessNodeDeps. rewrite Hedge.
  destruct (collect_deplog_edges g dep_nodes ∅) as [edges |]; [| done].
  pose proof (find_missing_deps_no_fault fuel edge (set_order edges) (adjacency_map_ s)).
  destruct (find_missing_deps _ _ _ _ _) as [[missing m'] | |]; simpl; try done.
  destruct missing; [done |]. by destruct (report_missing _ _ _ _ _).
Qed.

Lemma classify_deps_no_fault fuel n edge s :
  in_edge g n = Some edge → classify_deps g fuel n edge s ≠ NullDeref.
Proof.
  intros Hedge. unfold classify_deps.
  destruct (decide (GetBinding g edge "deps" ≠ ""%string)).
  - destruct (GetDeps _ n); [by eapply ProcessNodeDeps_no_fault | done].
  - destruct (LoadDeps g _ edge) as [ok loader].
    destruct (dep_nodes_output_ loader); [done | by eapply ProcessNodeDeps_no_fault].
Qed.

Lemma ProcessNode_no_fault fuel : ∀ node s, ProcessNode g fuel node s ≠ NullDeref.
Proof.
  induction fuel as [| fuel IH]; intros node s; [done |]. simpl.
  destruct node as [n |]; [| done].
  destruct (in_edge g n) as [edge |] eqn:Hedge; [| done].
  destruct (decide (n ∈ seen_ s)); [done |].
  assert (Hins : ∀ ins s0, process_inputs (ProcessNode g fuel) ins s0 ≠ NullDeref).
  { induction ins as [| i rest IHins]; intros s0; simpl; [done |].
    pose proof (IH (Some i) s0).
    destruct (ProcessNode g fuel (Some i) s0); simpl; [apply IHins | done | done]. }
  pose proof (Hins (inputs_ g edge) (insert_seen n s)).
  destruct (process_inputs _ _ _) as [s1 | |]; simpl; [| done | done].
  by eapply classify_deps_no_fault.
Qed.

(** X7: a scan never hands a null edge to [PathExistsBetween].  The one
    pointer of the scanner that the model lets be null where the code
    dereferences it is the [to] edge of a reachability query (the edge of a
    node without producing edge, see X6); the other pointers of the code
    are not null in the model.  Whatever the fuel, the roots (absent ones
    included) and the scanner, [ProcessNode] on each root in turn never
    runs into that dereference: [ProcessNodeDeps] is only reached for nodes
    that have a producing edge. *)
Theorem scan_roots_never_faults fuel roots s :
  scan_roots g fuel roots s ≠ NullDeref.
Proof.
  revert s. induction roots as [| root rest IH]; intros s; simpl; [done |].
  pose proof (ProcessNode_no_fault fuel root s).
  destruct (ProcessNode g fuel root s); simpl; [apply IH | done | done].
Qed.

(** ** What a session has found only grows *)

Lemma findings_grow_refl s : findings_grow s s.
Proof. by repeat split. Qed.

Lemma findings_grow_trans s1 s2 s3 :
  findings_grow s1 s2 → findings_grow s2 s3 → findings_grow s1 s3.
Proof.
  intros (H1 & H2 & H3 & H4) (H1' & H2' & H3' & H4').
  split; [by transitivity (delegate_calls s2) |].
  split; [by transitivity (nodes_missing_deps_ s2) |].
  split; [by transitivity (generated_nodes_ s2) | by transitivity (generator_rules_ s2)].
Qed.

Lemma ProcessNodeDeps_findings_grow fuel node dep_nodes s s' :
  ProcessNodeDeps g fuel node dep_nodes s = Ok s' → findings_grow s s'.
Proof.
  intros Hrun.
  destruct (ProcessNodeDeps_shape _ _ _ _ _ Hrun) as [-> | (missing & m' & _ & _ & _ & ->)];
    [apply findings_grow_refl |].
  destruct missing as [| item rest]; [by repeat split |].
  pose proof (report_pairs_fields g node (reported g dep_nodes (item :: rest)) ∅
                (set_adjacency_map m' s)) as (_ & H2 & H3 & H4 & H5 & _).
  cbv zeta in *. unfold findings_grow. simpl in *. rewrite H2, H3, H4, H5.
  split; [by apply prefix_app_r |].
  split; [apply union_subseteq_r |]. split; apply union_subseteq_r.
Qed.

(** X8: nothing found is ever taken back.  Over any sequence of
    [ProcessNode] calls the calls already made to the delegate stay at the
    head of the trace, and the nodes-with-gaps, generated-inputs and
    generator-rules sets only grow. *)
Theorem scan_roots_findings_grow fuel roots s s' :
  scan_roots g fuel roots s = Ok s' → findings_grow s s'.
Proof.
  apply (scan_roots_lift findings_grow findings_grow_refl findings_grow_trans).
  - intros n s0. by repeat split.
  - intros n s0. by repeat split.
  - intros fuel0 node edge deps s0 s0' _. apply ProcessNodeDeps_findings_grow.
Qed.

(** ** The aggregates are those of the calls *)

Lemma consumers_of_calls node (pairs : list (nat * nat)) :
  pairs ≠ [] →
  list_to_set (md_node <$> (call_for g node <$> pairs)) =@{gset nat} {[node]}.
Proof.
  intros Hne. apply set_eq. intros x.
  rewrite elem_of_list_to_set, elem_of_singleton, list_elem_of_fmap. split.
  - intros (c & -> & Hc). by apply list_elem_of_fmap in Hc as (p & -> & _).
  - intros ->. destruct pairs as [| p ps]; [done |].
    exists (call_for g node p). split; [done | left].
Qed.

Lemma ProcessNodeDeps_aggregates_match fuel node dep_nodes s s' :
  ProcessNodeDeps g fuel node dep_nodes s = Ok s' →
  aggregates_match g s → aggregates_match g s'.
Proof.
  intros Hrun (Hnodes & Hrules & Hpaths).
  destruct (ProcessNodeDeps_shape _ _ _ _ _ Hrun)
    as [-> | (missing & m' & _ & _ & Hdeps & ->)]; [done |].
  destruct missing as [| item rest]; [done |].
  assert (reported g dep_nodes (item :: rest) ≠ []) as Hne.
  { apply reported_nonempty, Hdeps. left. }
  set (pairs := reported g dep_nodes (item :: rest)) in *.
  pose proof (report_pairs_fields g node pairs ∅ (set_adjacency_map m' s))
    as (_ & H2 & H3 & H4 & H5 & _).
  cbv zeta in *. unfold aggregates_match. simpl in *. rewrite H2, H3, H4, H5.
  rewrite !fmap_app, !list_to_set_app_L.
  split; [| split].
  - rewrite consumers_of_calls by done. rewrite Hnodes. apply (comm_L (∪)).
  - rewrite Hrules, <- list_fmap_compose. apply (comm_L (∪)).
  - intros p. rewrite elem_of_app, Hpaths. split.
    + intros [(d & Hd & Hp) | Hin].
      * exists d. split; [by apply elem_of_union_r | done].
      * apply list_elem_of_fmap in Hin as (c & -> & Hc).
        apply list_elem_of_fmap in Hc as (q & -> & Hq).
        exists q.1. split; [| done]. apply elem_of_union_l, elem_of_list_to_set.
        by apply list_elem_of_fmap_2.
    + intros (d & Hd & Hp). apply elem_of_union in Hd as [Hd | Hd].
      * right. apply elem_of_list_to_set, list_elem_of_fmap in Hd as (q & -> & Hq).
        apply list_elem_of_fmap. exists (call_for g node q). split; [done |].
        by apply list_elem_of_fmap_2.
      * left. by exists d.
Qed.

Lemma new_scanner_aggregates_match log : aggregates_match g (new_scanner log).
Proof.
  split; [done |]. split; [done |]. intros p. simpl. split.
  - intros Hp. by apply elem_of_nil in Hp.
  - intros (d & Hd & _). by apply not_elem_of_empty in Hd.
Qed.

Lemma scan_roots_keeps_aggregates fuel roots s s' :
  aggregates_match g s → scan_roots g fuel roots s = Ok s' → aggregates_match g s'.
Proof.
  intros Hs Hrun. revert Hs.
  apply (scan_roots_lift (λ a b, aggregates_match g a → aggregates_match g b))
    with (fuel := fuel) (roots := roots); try done.
  - intros s1 s2 s3 H12 H23 H1. auto.
  - intros fuel0 node edge deps s0 s0' _. apply ProcessNodeDeps_aggregates_match.
Qed.

Lemma HadMissingDeps_iff_calls s :
  aggregates_match g s → (HadMissingDeps s = true ↔ delegate_calls s ≠ []).
Proof.
  intros (Hnodes & _).
  unfold HadMissingDeps. rewrite negb_true_iff, bool_decide_eq_false, Hnodes.
  destruct (delegate_calls s) as [| c calls]; simpl.
  - split; [intros H; by destruct H | done].
  - split; [done |]. intros _ Hempty.
    assert (md_node c ∈@{gset nat} ∅) as Hin
      by (rewrite <- Hempty; apply elem_of_union_l, elem_of_singleton; done).
    by apply not_elem_of_empty in Hin.
Qed.

(** X9: the aggregates of a session are those of the calls made to the
    delegate.  After any sequence of [ProcessNode] calls the nodes-with-gaps
    set is the set of consumers named in the calls, the generator-rules set
    is the set of rules named in them, the paths of the generated-inputs set
    are the dependency paths named in them, and [HadMissingDeps] is true
    exactly when at least one call was made. *)
Theorem scan_roots_aggregates_match fuel roots s s' :
  aggregates_match g s → scan_roots g fuel roots s = Ok s' →
  aggregates_match g s' ∧ (HadMissingDeps s' = true ↔ delegate_calls s' ≠ []).
Proof.
  intros Hs Hrun. pose proof (scan_roots_keeps_aggregates _ _ _ _ Hs Hrun) as Hs'.
  split; [exact Hs' |]. by apply HadMissingDeps_iff_calls.
Qed.

(** X13: the summary of a session.  After any sequence of [ProcessNode]
    calls (from a scanner whose aggregates are those of its calls, a new
    one for instance) [PrintStats] prints the count of visited nodes, and
    then the line "No missing dependencies on generated files found." if
    and only if no call was made to the delegate. *)
Theorem PrintStats_clean_iff_no_call fuel roots s s' :
  aggregates_match g s → scan_roots g fuel roots s = Ok s' →
  (delegate_calls s' = [] ↔
   PrintStats s' =
     ("Processed " +:+ pretty (size (seen_ s')) +:+ " nodes." +:+ endl +:+
      "No missing dependencies on generated files found." +:+ endl)%string).
Proof.
  intros Hs Hrun.
  pose proof (HadMissingDeps_iff_calls _ (scan_roots_keeps_aggregates _ _ _ _ Hs Hrun)) as Hhad.
  unfold PrintStats. destruct (HadMissingDeps s') eqn:Hm.
  - split.
    + intros Hnil. destruct Hhad as [Hhad _]. by destruct (Hhad eq_refl).
    + intros Heq. simpl in Heq. simplify_eq.
  - split; [done |]. intros _.
    destruct (delegate_calls s') as [| c calls]; [done |].
    destruct Hhad as [_ Hhad]. by specialize (Hhad ltac:(done)).
Qed.

(** ** Every report is a real gap *)



(** ** Edge behaviour of ProcessNodeDeps *)

Lemma collect_deplog_edges_sources dep_nodes : ∀ acc edges,
  (∀ d, d ∈ dep_nodes → in_edge g d = None) →
  collect_deplog_edges g dep_nodes acc = Some edges → edges = acc.
Proof.
  induction dep_nodes as [| d rest IH]; intros acc edges Hsrc Hrun; simpl in Hrun.
  - by injection Hrun as <-.
  - destruct (decide (path g d = "build.ninja"%string)); [done |].
    rewrite (Hsrc d) in Hrun by left. apply IH in Hrun; [done |].
    intros d' Hd'. apply Hsrc. by right.
Qed.

Lemma set_adjacency_map_same s : set_adjacency_map (adjacency_map_ s) s = s.
Proof. by destruct s. Qed.

(** X4: dependencies that are all source files (an empty array included)
    make [ProcessNodeDeps] a no-op.  No reachability query is made: the
    scanner, memo included, is returned as it was, for any fuel and also
    for a node that has no producing edge. *)
Theorem ProcessNodeDeps_source_only fuel node dep_nodes s :
  (∀ d, d ∈ dep_nodes → in_edge g d = None) →
  ProcessNodeDeps g fuel node dep_nodes s = Ok s.
Proof.
  intros Hsrc. unfold ProcessNodeDeps.
  destruct (collect_deplog_edges g dep_nodes ∅) as [edges |] eqn:Hcollect; [| done].
  apply collect_deplog_edges_sources in Hcollect as ->; [| done].
  unfold set_order. rewrite elements_empty. simpl.
  by rewrite set_adjacency_map_same.
Qed.

(** X6: [ProcessNodeDeps] needs a node with a producing edge.  Called for a
    node without one, with a dependency array that names a generated node
    and no "build.ninja", it passes a null [to] to [PathExistsBetween],
    which dereferences it. *)
Theorem ProcessNodeDeps_null_edge fuel node dep_nodes s :
  in_edge g node = None →
  (∀ d, d ∈ dep_nodes → path g d ≠ "build.ninja"%string) →
  (∃ d, d ∈ dep_nodes ∧ is_Some (in_edge g d)) →
  ProcessNodeDeps g fuel node dep_nodes s = NullDeref.
Proof.
  intros Hnode Hpaths (d & Hd & [e He]). unfold ProcessNodeDeps. rewrite Hnode.
  destruct (collect_deplog_edges g dep_nodes ∅) as [edges |] eqn:Hcollect.
  2: { apply collect_deplog_edges_None in Hcollect as (d' & Hd' & Hp).
       by destruct (Hpaths d' Hd'). }
  assert (e ∈ set_order edges) as Hin.
  { apply elem_of_set_order, (collect_deplog_edges_Some g _ _ _ Hcollect). right. eauto. }
  destruct (set_order edges) as [| de rest]; [by apply elem_of_nil in Hin | done].
Qed.

(** X5: a covered dependency set is not reported.  On an acyclic graph, if
    every generated dependency has an explicit path from its producing edge
    to the edge of the node, [ProcessNodeDeps] returns without calling the
    delegate and without touching the aggregates. *)
Theorem ProcessNodeDeps_covered node edge dep_nodes s :
  acyclic g → memo_ok g (adjacency_map_ s) → in_edge g node = Some edge →
  (∀ d e, d ∈ dep_nodes → in_edge g d = Some e → reachable g e edge) →
  ∃ N, ∀ fuel, N ≤ fuel →
    ∃ s', ProcessNodeDeps g fuel node dep_nodes s = Ok s' ∧ findings s' = findings s.
Proof.
  intros Hacyclic Hm Hedge Hcov.
  destruct (PathExistsBetween_terminates g edge (Hacyclic edge)) as [N HN].
  exists N. intros fuel Hfuel.
  destruct (ProcessNodeDeps_terminates g N fuel node edge dep_nodes s Hedge HN Hfuel)
    as [s' Hrun].
  exists s'. split; [done |].
  destruct (ProcessNodeDeps_shape _ _ _ _ _ Hrun) as [-> | (_ & _ & Hpaths & _)]; [done |].
  destruct (ProcessNodeDeps_sound g _ _ _ _ _ _ Hedge Hm Hpaths Hrun)
    as (missing & m' & _ & Hmem & _ & ->).
  destruct missing as [| item rest]; [done |].
  assert (item ∈ item :: rest) as Hin by left.
  apply Hmem in Hin as [(d & Hd & Hde) Hnr]. destruct Hnr. by eapply Hcov.
Qed.

(** X3: a dependency on an output of the node's own edge is reported.  On
    an acyclic graph no edge has an explicit path to itself, so a
    dependency produced by the very edge that produces the node (a sibling
    output, or the node itself) is a missing dependency for the scanner:
    the delegate is called for it and the node is flagged. *)
Theorem ProcessNodeDeps_reports_own_edge node edge dep_nodes d s :
  acyclic g → memo_ok g (adjacency_map_ s) → in_edge g node = Some edge →
  (∀ d', d' ∈ dep_nodes → path g d' ≠ "build.ninja"%string) →
  d ∈ dep_nodes → in_edge g d = Some edge →
  ∃ N, ∀ fuel, N ≤ fuel →
    ∃ s', ProcessNodeDeps g fuel node dep_nodes s = Ok s' ∧
          OnMissingDep node (path g d) (rule g edge) ∈ delegate_calls s' ∧
          node ∈ nodes_missing_deps_ s'.
Proof.
  intros Hacyclic Hm Hedge Hpaths Hd Hde.
  destruct (PathExistsBetween_terminates g edge (Hacyclic edge)) as [N HN].
  exists N. intros fuel Hfuel.
  destruct (ProcessNodeDeps_terminates g N fuel node edge dep_nodes s Hedge HN Hfuel)
    as [s' Hrun].
  exists s'. split; [done |].
  destruct (ProcessNodeDeps_sound g _ _ _ _ _ _ Hedge Hm Hpaths Hrun)
    as (missing & m' & _ & Hmem & _ & ->).
  assert (edge ∈ missing) as Hin.
  { apply Hmem. split; [by exists d |]. by apply acyclic_no_self_path. }
  destruct missing as [| item rest]; [by apply elem_of_nil in Hin |].
  set (pairs := reported g dep_nodes (item :: rest)) in *.
  pose proof (report_pairs_fields g node pairs ∅ (set_adjacency_map m' s))
    as (_ & H2 & _ & _ & H5 & _).
  cbv zeta in H2, H5. simpl in H2, H5. cbv zeta. simpl. rewrite H2. split.
  - apply elem_of_app. right. apply list_elem_of_fmap. exists (d, edge).
    split; [done |]. unfold pairs. by apply elem_of_reported.
  - apply elem_of_union_l, elem_of_singleton. done.
Qed.

(** ** The visited set *)

Lemma ProcessNode_closed fuel : ∀ node s s' pending,
  visit_closed g pending s → ProcessNode g fuel node s = Ok s' →
  visit_closed g pending s'.
Proof.
  induction fuel as [| fuel IH]; intros node s s' pending Hclosed Hrun; [done |].
  simpl in Hrun.
  destruct node as [n |]; [| by injection Hrun as <-].
  destruct (in_edge g n) as [edge |] eqn:Hedge; [| by injection Hrun as <-].
  destruct (decide (n ∈ seen_ s)) as [Hseen | Hseen]; [by injection Hrun as <- |].
  destruct (process_inputs _ _ _) as [s1 | |] eqn:Hins; simpl in Hrun; try done.
  assert (Hinputs : ∀ ins s0 s0', 
    visit_closed g (pending ∪ {[n]}) s0 →
    process_inputs (ProcessNode g fuel) ins s0 = Ok s0' →
    visit_closed g (pending ∪ {[n]}) s0' ∧
    ∀ i, i ∈ ins → is_Some (in_edge g i) → i ∈ seen_ s0').
  { induction ins as [| i rest IHins]; intros s0 s0' Hc0 Hrun0; simpl in Hrun0.
    - injection Hrun0 as <-. split; [done |]. intros i Hi. by apply elem_of_nil in Hi.
    - destruct (ProcessNode g fuel (Some i) s0) as [sa | |] eqn:Hi; simpl in Hrun0; try done.
      pose proof (IH _ _ _ _ Hc0 Hi) as Hca.
      destruct (IHins _ _ Hca Hrun0) as [Hc' Hrest]. split; [done |].
      intros j Hj Hsome. apply elem_of_cons in Hj as [-> | Hj]; [| by apply Hrest].
      destruct Hsome as [e He].
      pose proof (ProcessNode_marks_seen g _ _ _ _ _ He Hi) as Hseen_i.
      apply (process_inputs_steps _ _ (ProcessNode_steps g fuel)) in Hrun0 as (_ & Hsub & _).
      by apply Hsub. }
  destruct (Hinputs (inputs_ g edge) (insert_seen n s) s1) as [Hc1 Hin1]; [| done |].
  { intros m Hm Hpend. simpl in Hm.
    apply not_elem_of_union in Hpend as [Hpend Hmn].
    apply elem_of_union in Hm as [Hm | Hm]; [done |].
    destruct (Hclosed m Hm Hpend) as (H1 & H2 & H3).
    split; [done |]. split; [done |]. intros i Hi. simpl.
    by apply elem_of_union_r, H3. }
  apply classify_deps_frame in Hrun as (Hs & Hcl & _).
  intros m Hm Hpend. rewrite Hs in Hm. rewrite Hs, Hcl.
  destruct (decide (m = n)) as [-> | Hne].
  - split; [by rewrite Hedge |]. split; [apply elem_of_app; right; left |].
    intros i (edge' & Hedge' & Hi & Hsome). rewrite Hedge in Hedge'.
    injection Hedge' as <-. by apply Hin1.
  - destruct (Hc1 m Hm) as (H1 & H2 & H3).
    { apply not_elem_of_union. split; [done |]. by rewrite elem_of_singleton. }
    split; [done |]. split; [by apply elem_of_app; left | done].
Qed.

Lemma scan_roots_closed fuel roots : ∀ s s',
  visit_closed g ∅ s → scan_roots g fuel roots s = Ok s' →
  visit_closed g ∅ s' ∧
  ∀ n, Some n ∈ roots → is_Some (in_edge g n) → n ∈ seen_ s'.
Proof.
  induction roots as [| root rest IH]; intros s s' Hclosed Hrun; simpl in Hrun.
  - injection Hrun as <-. split; [done |]. intros n Hn. by apply elem_of_nil in Hn.
  - destruct (ProcessNode g fuel root s) as [s1 | |] eqn:Hroot; simpl in Hrun; try done.
    pose proof (ProcessNode_closed _ _ _ _ _ Hclosed Hroot) as Hc1.
    destruct (IH _ _ Hc1 Hrun) as [Hc' Hrest]. split; [done |].
    intros n Hn Hsome. apply elem_of_cons in Hn as [<- | Hn]; [| by apply Hrest].
    destruct Hsome as [e He].
    pose proof (ProcessNode_marks_seen g _ _ _ _ _ He Hroot) as Hseen.
    apply scan_roots_steps in Hrun as (_ & Hsub & _). by apply Hsub.
Qed.

Lemma new_scanner_visit_closed log : visit_closed g ∅ (new_scanner log).
Proof. intros n Hn. by apply not_elem_of_empty in Hn. Qed.



(** X12: the classification runs exactly once for each visited node.
    After any sequence of [ProcessNode] calls (from a new scanner for
    instance) the nodes classified are, up to their order, the visited
    nodes, each once; their number is the count that [PrintStats] prints
    as processed. *)
Theorem scan_roots_classifies_each_once fuel roots s s' :
  visit_closed g ∅ s → classified_once s → scan_roots g fuel roots s = Ok s' →
  classified s' ≡ₚ elements (seen_ s') ∧ length (classified s') = size (seen_ s').
Proof.
  intros Hclosed Honce Hrun.
  destruct (scan_roots_closed _ _ _ _ Hclosed Hrun) as [Hc' _].
  pose proof (visit_step_classified_once _ _ (scan_roots_steps g _ _ _ _ Hrun) Honce)
    as [Hnd Hsub].
  assert (classified s' ≡ₚ elements (seen_ s')) as Hperm.
  { apply NoDup_Permutation; [done | apply NoDup_elements |].
    intros n. rewrite elem_of_elements. split; [apply Hsub |].
    intros Hn. by destruct (Hc' n Hn) as (_ & ? & _); [apply not_elem_of_empty |]. }
  split; [done |]. by rewrite Hperm.
Qed.

End scanner_facts.

Section dependency_order.
Context (g : Graph).

Lemma reported_Permutation dep_nodes dep_nodes' missing missing' :
  dep_nodes ≡ₚ dep_nodes' → missing ≡ₚ missing' →
  reported g dep_nodes missing ≡ₚ reported g dep_nodes' missing'.
Proof.
  intros Hdeps Hmissing. unfold reported. rewrite Hmissing. clear Hmissing missing.
  induction missing' as [| item rest IH]; [done |].
  rewrite !bind_cons. by rewrite IH, Hdeps.
Qed.

Lemma ProcessNodeDeps_reserved fuel node dep_nodes s :
  Exists (λ d, path g d = "build.ninja"%string) dep_nodes →
  ProcessNodeDeps g fuel node dep_nodes s = Ok s.
Proof.
  intros Hex. apply Exists_exists in Hex. unfold ProcessNodeDeps.
  apply (collect_deplog_edges_None g dep_nodes ∅) in Hex. by rewrite Hex.
Qed.

(** X20: the order of the dependency array does not matter to what is
    found.  On an acyclic graph, two calls of [ProcessNodeDeps] from the
    same scanner with arrays that are permutations of each other both
    return, make the same calls of the delegate up to their order, and
    leave the same nodes-with-gaps, generated-inputs and generator-rules
    sets and the same problem count. *)
Theorem ProcessNodeDeps_order_irrelevant node edge dep_nodes dep_nodes' s :
  acyclic g → memo_ok g (adjacency_map_ s) → in_edge g node = Some edge →
  dep_nodes ≡ₚ dep_nodes' →
  ∃ N, ∀ fuel, N ≤ fuel →
    ∃ s1 s2,
      ProcessNodeDeps g fuel node dep_nodes s = Ok s1 ∧
      ProcessNodeDeps g fuel node dep_nodes' s = Ok s2 ∧
      delegate_calls s1 ≡ₚ delegate_calls s2 ∧
      nodes_missing_deps_ s1 = nodes_missing_deps_ s2 ∧
      generated_nodes_ s1 = generated_nodes_ s2 ∧
      generator_rules_ s1 = generator_rules_ s2 ∧
      missing_dep_path_count_ s1 = missing_dep_path_count_ s2.
Proof.
  intros Hacyclic Hm Hedge Hperm.
  destruct (PathExistsBetween_terminates g edge (Hacyclic edge)) as [N HN].
  exists N. intros fuel Hfuel.
  destruct (decide (Exists (λ d, path g d = "build.ninja"%string) dep_nodes))
    as [Hex | Hnex].
  { exists s, s. split; [by apply ProcessNodeDeps_reserved |].
    split; [apply ProcessNodeDeps_reserved; by rewrite <- Hperm | done]. }
  assert (Hpaths : ∀ d, d ∈ dep_nodes → path g d ≠ "build.ninja"%string).
  { intros d Hd Hp. apply Hnex, Exists_exists. eauto. }
  assert (Hpaths' : ∀ d, d ∈ dep_nodes' → path g d ≠ "build.ninja"%string).
  { intros d Hd. apply Hpaths. by rewrite Hperm. }
  destruct (ProcessNodeDeps_terminates g N fuel node edge dep_nodes s Hedge HN Hfuel)
    as [s1 Hrun1].
  destruct (ProcessNodeDeps_terminates g N fuel node edge dep_nodes' s Hedge HN Hfuel)
    as [s2 Hrun2].
  exists s1, s2. split; [done |]. split; [done |].
  destruct (ProcessNodeDeps_sound g _ _ _ _ _ _ Hedge Hm Hpaths Hrun1)
    as (missing1 & m1 & Hnd1 & Hmem1 & _ & ->).
  destruct (ProcessNodeDeps_sound g _ _ _ _ _ _ Hedge Hm Hpaths' Hrun2)
    as (missing2 & m2 & Hnd2 & Hmem2 & _ & ->).
  assert (missing1 ≡ₚ missing2) as Hmissing.
  { apply NoDup_Permutation; [done | done |]. intros e. rewrite Hmem1, Hmem2.
    unfold missing_edge. by setoid_rewrite Hperm. }
  pose proof (reported_Permutation _ _ _ _ Hperm Hmissing) as Hpairs.
  destruct missing1 as [| item1 rest1], missing2 as [| item2 rest2].
  - done.
  - by apply Permutation_nil_cons in Hmissing.
  - symmetry in Hmissing. by apply Permutation_nil_cons in Hmissing.
  - set (pairs1 := reported g dep_nodes (item1 :: rest1)) in *.
    set (pairs2 := reported g dep_nodes' (item2 :: rest2)) in *.
    pose proof (report_pairs_fields g node pairs1 ∅ (set_adjacency_map m1 s))
      as (A1 & A2 & A3 & A4 & A5 & A6 & _).
    pose proof (report_pairs_fields g node pairs2 ∅ (set_adjacency_map m2 s))
      as (B1 & B2 & B3 & B4 & B5 & B6 & _).
    cbv zeta in A1, A2, A3, A4, A5, A6, B1, B2, B3, B4, B5, B6.
    simpl in A1, A2, A3, A4, A5, A6, B1, B2, B3, B4, B5, B6. cbv zeta. simpl.
    rewrite A1, A2, A3, A4, A5, A6, B1, B2, B3, B4, B5, B6.
    rewrite Hpairs. done.
Qed.

End dependency_order.

(** ** The stat cache *)

Section stat_cache_facts.
Variable new_FileStat : string → FileStat.

Lemma GetFile_hit c path file :
  paths_ c !! c_str path = Some file → GetFile new_FileStat c path = (file, c).
Proof. intros H. unfold GetFile. by rewrite H. Qed.

Lemma GetFile_miss c path :
  paths_ c !! c_str path = None →
  GetFile new_FileStat c path =
  (length (heap c),
   {| heap := heap c ++ [new_FileStat path];
      paths_ := <[c_str (path_ (new_FileStat path)) := length (heap c)]> (paths_ c) |}).
Proof. intros H. unfold GetFile. by rewrite H. Qed.

Lemma GetFile_heap c p file fs :
  heap c !! file = Some fs → heap (GetFile new_FileStat c p).2 !! file = Some fs.
Proof.
  intros Hf. unfold GetFile. destruct (paths_ c !! c_str p); simpl; [done |].
  by apply lookup_app_l_Some.
Qed.

Lemma GetFile_keeps_wf c path : cache_wf c → cache_wf (GetFile new_FileStat c path).2.
Proof.
  intros Hwf key file Hkey.
  destruct (paths_ c !! c_str path) as [f |] eqn:Hp.
  - rewrite (GetFile_hit _ _ _ Hp) in Hkey |- *. by apply Hwf.
  - rewrite (GetFile_miss _ _ Hp) in Hkey |- *. simpl in *.
    destruct (decide (c_str (path_ (new_FileStat path)) = key)) as [<- | Hne].
    + rewrite lookup_insert_eq in Hkey. injection Hkey as <-.
      exists (new_FileStat path). split; [by apply list_lookup_middle |].
      apply c_str_spec.
    + rewrite lookup_insert_ne in Hkey by done.
      destruct (Hwf _ _ Hkey) as (fs & Hfs & Hpath). exists fs.
      split; [by apply lookup_app_l_Some | done].
Qed.

Lemma GetFile_returns_object c path :
  cache_wf c →
  ∃ fs, heap (GetFile new_FileStat c path).2 !! (GetFile new_FileStat c path).1 = Some fs ∧
        (paths_ c !! c_str path = None → fs = new_FileStat path) ∧
        (is_Some (paths_ c !! c_str path) → is_c_string_of (c_str path) (path_ fs)).
Proof.
  intros Hwf. destruct (paths_ c !! c_str path) as [f |] eqn:Hp.
  - rewrite (GetFile_hit _ _ _ Hp). simpl. destruct (Hwf _ _ Hp) as (fs & Hfs & Hpath).
    exists fs. split; [done |]. split; [done | by intros _].
  - rewrite (GetFile_miss _ _ Hp). simpl. exists (new_FileStat path).
    split; [by apply list_lookup_middle |]. split; [done |]. by intros [? ?].
Qed.

(** X14: [GetFile] keeps the table well formed.  If every pointer of the
    table designates a [FileStat] and every key is the C string of the
    [path_] of the object it points to, this still holds after [GetFile],
    whatever the constructor does; the pointer returned designates an
    object, the one just constructed when the key was absent and otherwise
    one whose [path_] has the C string of the requested path; and no
    existing object is changed. *)
Theorem GetFile_well_formed (c : StatCache) (path key : string) :
  cache_wf c → is_c_string_of key path →
  cache_wf (GetFile new_FileStat c path).2 ∧
  (∃ fs, heap (GetFile new_FileStat c path).2 !! (GetFile new_FileStat c path).1 = Some fs ∧
         (paths_ c !! key = None → fs = new_FileStat path) ∧
         (is_Some (paths_ c !! key) → is_c_string_of key (path_ fs))) ∧
  (∀ file fs, heap c !! file = Some fs →
              heap (GetFile new_FileStat c path).2 !! file = Some fs).
Proof.
  intros Hwf <-%c_str_unique. split; [by apply GetFile_keeps_wf |].
  split; [by apply GetFile_returns_object |].
  intros file fs. apply GetFile_heap.
Qed.

Lemma cache_wf_inj c k1 k2 f :
  cache_wf c → paths_ c !! k1 = Some f → paths_ c !! k2 = Some f → k1 = k2.
Proof.
  intros Hwf H1 H2. destruct (Hwf _ _ H1) as (fs1 & Hf1 & <-%c_str_unique).
  destruct (Hwf _ _ H2) as (fs2 & Hf2 & <-%c_str_unique). congruence.
Qed.

Lemma GetFile_lookup c p :
  c_str (path_ (new_FileStat p)) = c_str p →
  paths_ (GetFile new_FileStat c p).2 !! c_str p = Some (GetFile new_FileStat c p).1.
Proof.
  intros Hctor. destruct (paths_ c !! c_str p) as [f |] eqn:Hp.
  - by rewrite (GetFile_hit _ _ _ Hp).
  - rewrite (GetFile_miss _ _ Hp). simpl. rewrite Hctor. apply lookup_insert_eq.
Qed.

(** X15: paths with different C strings never share a [FileStat].  In a
    well-formed cache, and for a constructor that keeps the C string of the
    first path, [GetFile] for two paths whose C strings differ (two
    different paths without NUL, for instance) returns two different
    pointers, whether the paths were cached before or not. *)
Theorem GetFile_distinct_paths (c : StatCache) (p q kp kq : string) :
  cache_wf c → is_c_string_of kp p → is_c_string_of kq q → kp ≠ kq →
  is_c_string_of kp (path_ (new_FileStat p)) →
  (GetFile new_FileStat c p).1 ≠
  (GetFile new_FileStat (GetFile new_FileStat c p).2 q).1.
Proof.
  intros Hwf <-%c_str_unique <-%c_str_unique Hne Hctor%c_str_unique Heq.
  pose proof (GetFile_keeps_wf c p Hwf) as Hwf1.
  pose proof (GetFile_lookup c p Hctor) as Hp.
  set (c1 := (GetFile new_FileStat c p).2) in *.
  set (f1 := (GetFile new_FileStat c p).1) in *.
  destruct (paths_ c1 !! c_str q) as [f |] eqn:Hq.
  - rewrite (GetFile_hit _ _ _ Hq) in Heq. simpl in Heq. subst f.
    apply Hne. by eapply cache_wf_inj.
  - rewrite (GetFile_miss _ _ Hq) in Heq. simpl in Heq.
    destruct (Hwf1 _ _ Hp) as (fs & Hfs & _). apply lookup_lt_Some in Hfs. lia.
Qed.

Lemma cache_of_snoc paths p :
  cache_of new_FileStat (paths ++ [p]) =
  (GetFile new_FileStat (cache_of new_FileStat paths) p).2.
Proof. unfold cache_of. by rewrite foldl_app. Qed.

Lemma empty_cache_wf : cache_wf empty_cache.
Proof. intros key file H. simpl in H. by rewrite lookup_empty in H. Qed.

Lemma cache_of_wf paths : cache_wf (cache_of new_FileStat paths).
Proof.
  induction paths as [| p paths IH] using rev_ind; [apply empty_cache_wf |].
  rewrite cache_of_snoc. by apply GetFile_keeps_wf.
Qed.

Lemma cache_of_keys paths k :
  keeps_c_string new_FileStat →
  is_Some (paths_ (cache_of new_FileStat paths) !! k) ↔
  ∃ p, p ∈ paths ∧ is_c_string_of k p.
Proof.
  intros Hctor. induction paths as [| q paths IH] using rev_ind.
  - split; [intros [f Hf]; simpl in Hf; by rewrite lookup_empty in Hf |].
    intros (p & Hp & _). by apply elem_of_nil in Hp.
  - rewrite cache_of_snoc.
    assert (c_str (path_ (new_FileStat q)) = c_str q) as Hq
      by (apply c_str_unique, Hctor, c_str_spec).
    set (c := cache_of new_FileStat paths) in *.
    assert (is_Some (paths_ (GetFile new_FileStat c q).2 !! k) ↔
            is_Some (paths_ c !! k) ∨ k = c_str q) as ->.
    { destruct (paths_ c !! c_str q) as [f |] eqn:Hl.
      - rewrite (GetFile_hit _ _ _ Hl). simpl. split; [by left |].
        intros [? | ->]; [done | by rewrite Hl].
      - rewrite (GetFile_miss _ _ Hl). simpl. rewrite Hq.
        destruct (decide (c_str q = k)) as [<- | Hne].
        + rewrite lookup_insert_eq. split; [by right | eauto].
        + rewrite lookup_insert_ne by done. split; [by left |].
          intros [? | ->]; done. }
    rewrite IH. split.
    + intros [(p & Hp & Hk) | ->].
      * exists p. split; [apply elem_of_app; by left | done].
      * exists q. split; [apply elem_of_app; right; left | apply c_str_spec].
    + intros (p & Hp & Hk). apply elem_of_app in Hp as [Hp | Hp].
      * left. by exists p.
      * apply list_elem_of_singleton in Hp as ->. right.
        symmetry. by apply c_str_unique.
Qed.

Lemma cache_of_one_object_per_key paths :
  keeps_c_string new_FileStat →
  length (heap (cache_of new_FileStat paths)) = size (paths_ (cache_of new_FileStat paths)).
Proof.
  intros Hctor. induction paths as [| q paths IH] using rev_ind; [done |].
  rewrite cache_of_snoc.
  assert (c_str (path_ (new_FileStat q)) = c_str q) as Hq
    by (apply c_str_unique, Hctor, c_str_spec).
  set (c := cache_of new_FileStat paths) in *.
  destruct (paths_ c !! c_str q) as [f |] eqn:Hl.
  - by rewrite (GetFile_hit _ _ _ Hl).
  - rewrite (GetFile_miss _ _ Hl). simpl. rewrite Hq.
    rewrite length_app, map_size_insert_None by done. simpl. lia.
Qed.

(** X16: a cache filled by [GetFile] alone.  After [GetFile] has been
    called for a list of paths on an empty cache, with a constructor that
    keeps the C string of its path, the cache is well formed, the keys of
    the table are exactly the C strings of the requested paths, and there
    is exactly one [FileStat] object for each key: a path is allocated
    once, however often and in whatever spelling after its first NUL it is
    requested. *)
Theorem cache_of_GetFile_only (paths : list string) :
  keeps_c_string new_FileStat →
  cache_wf (cache_of new_FileStat paths) ∧
  (∀ k, is_Some (paths_ (cache_of new_FileStat paths) !! k) ↔
        ∃ p, p ∈ paths ∧ is_c_string_of k p) ∧
  length (heap (cache_of new_FileStat paths)) =
    size (paths_ (cache_of new_FileStat paths)).
Proof.
  intros Hctor. split; [apply cache_of_wf |].
  split; [intros k; by apply cache_of_keys | by apply cache_of_one_object_per_key].
Qed.

End stat_cache_facts.

Section invalidate_facts.

Lemma node_after_reset (heap : list FileStat) k fs j :
  heap !! k = Some fs → <[k := reset_mtime fs]> heap !! j ≫= node_ = heap !! j ≫= node_.
Proof.
  intros Hk. destruct (decide (k = j)) as [<- | Hne].
  - rewrite list_lookup_insert_eq by (by eapply lookup_lt_Some). by rewrite Hk.
  - by rewrite list_lookup_insert_ne.
Qed.

Lemma entry_nodes_after_reset (heap : list FileStat) k fs (entries : list (string * nat)) :
  heap !! k = Some fs →
  omap (λ i : string * nat, <[k := reset_mtime fs]> heap !! i.2 ≫= node_) entries =
  omap (λ i : string * nat, heap !! i.2 ≫= node_) entries.
Proof.
  intros Hk. apply list_omap_ext, Forall_Forall2_diag, Forall_forall.
  intros i _. by apply node_after_reset.
Qed.

Lemma clear_flags_lookup (ns : list nat) : ∀ (dirty : gmap nat bool) n,
  foldl (λ d n, <[n := false]> d) dirty ns !! n =
  if decide (n ∈ ns) then Some false else dirty !! n.
Proof.
  induction ns as [| n0 ns IH]; intros dirty n.
  - destruct (decide (n ∈ [])) as [Hn | _]; [by apply elem_of_nil in Hn | done].
  - simpl foldl. rewrite IH. destruct (decide (n ∈ ns)) as [Hin | Hnin].
    + rewrite decide_True; [done | by right].
    + destruct (decide (n0 = n)) as [-> | Hne].
      * rewrite lookup_insert_eq, decide_True; [done | left].
      * rewrite lookup_insert_ne by done. rewrite decide_False; [done |].
        intros Hn. apply elem_of_cons in Hn as [-> | Hn]; done.
Qed.

Lemma invalidate_entries_ok (entries : list (string * nat)) : ∀ heap dirty,
  (∀ i, i ∈ entries → is_Some (heap !! i.2 ≫= node_)) →
  ∃ heap',
    invalidate_entries entries (heap, dirty) =
      Ok (heap', foldl (λ d n, <[n := false]> d) dirty
                       (omap (λ i : string * nat, heap !! i.2 ≫= node_) entries)) ∧
    ∀ f, heap' !! f =
         (if decide (f ∈ entries.*2) then reset_mtime else id) <$> heap !! f.
Proof.
  induction entries as [| i rest IH]; intros heap dirty Hall.
  - exists heap. split; [done |]. intros f.
    destruct (decide (f ∈ [].*2)) as [Hf | _]; [by apply elem_of_nil in Hf |].
    by rewrite option_fmap_id.
  - destruct (Hall i) as [n Hn]; [left |].
    destruct (heap !! i.2) as [fs |] eqn:Hfs; [| done]. simpl in Hn.
    destruct (IH (<[i.2 := reset_mtime fs]> heap) (<[n := false]> dirty)) as (heap' & Hrun & Hlook).
    { intros j Hj. rewrite node_after_reset by done. apply Hall. by right. }
    exists heap'. split.
    + rewrite (entry_nodes_after_reset _ _ _ rest Hfs) in Hrun.
      simpl. unfold invalidate_entry. simpl. rewrite Hfs. simpl. rewrite Hn. simpl.
      exact Hrun.
    + intros f. rewrite Hlook. rewrite fmap_cons. simpl.
      destruct (decide (i.2 = f)) as [<- | Hne].
      * rewrite list_lookup_insert_eq by (by eapply lookup_lt_Some).
        rewrite Hfs, (decide_True (P := i.2 ∈ i.2 :: rest.*2)) by left.
        by destruct (decide (i.2 ∈ rest.*2)).
      * rewrite list_lookup_insert_ne by done.
        destruct (decide (f ∈ rest.*2)) as [Hin | Hnin].
        -- rewrite decide_True; [done | by right].
        -- rewrite decide_False; [done |]. intros Hf.
           apply elem_of_cons in Hf as [-> | Hf]; done.
Qed.

Lemma invalidate_entries_fault (entries : list (string * nat)) : ∀ heap dirty,
  (∃ i, i ∈ entries ∧ heap !! i.2 ≫= node_ = None) →
  invalidate_entries entries (heap, dirty) = NullDeref.
Proof.
  induction entries as [| i rest IH]; intros heap dirty (j & Hj & Hbad).
  - by apply elem_of_nil in Hj.
  - simpl. unfold invalidate_entry. simpl.
    destruct (heap !! i.2) as [fs |] eqn:Hfs; [| done].
    destruct (node_ fs) as [n |] eqn:Hn; [| done]. simpl.
    apply IH. exists j. rewrite node_after_reset by done.
    apply elem_of_cons in Hj as [-> | Hj]; [| done].
    rewrite Hfs in Hbad. simpl in Hbad. congruence.
Qed.

Lemma invalidate_entries_never_out_of_fuel (entries : list (string * nat)) : ∀ acc,
  invalidate_entries entries acc ≠ OutOfFuel.
Proof.
  induction entries as [| i rest IH]; intros acc; simpl; [done |].
  unfold invalidate_entry. destruct (acc.1 !! i.2) as [fs |]; [| done].
  destruct (node_ fs); [| done]. simpl. apply IH.
Qed.

Lemma entries_have_nodes c :
  (∀ key file, paths_ c !! key = Some file → is_Some (file_node c file)) ↔
  (∀ i, i ∈ map_to_list (paths_ c) → is_Some (heap c !! i.2 ≫= node_)).
Proof.
  split.
  - intros H [key file] Hi. apply elem_of_map_to_list in Hi. by eapply H.
  - intros H key file Hk. apply elem_of_map_to_list in Hk. by apply H in Hk.
Qed.

(** X17: what [Invalidate] does when every cached file has a node.  It
    returns normally and leaves the table as it is; every cached
    [FileStat] keeps its path and its node and has mtime -1 afterwards; the
    node of every cached file is marked clean; the objects that the table
    does not point to and the flags of all other nodes are untouched. *)
Theorem Invalidate_effect (c : StatCache) (dirty : gmap nat bool) :
  (∀ key file, paths_ c !! key = Some file →
     ∃ fs n, heap c !! file = Some fs ∧ node_ fs = Some n) →
  ∃ c' dirty',
    Invalidate c dirty = Ok (c', dirty') ∧
    paths_ c' = paths_ c ∧
    (∀ key file, paths_ c !! key = Some file →
       ∃ fs fs' n, heap c !! file = Some fs ∧ heap c' !! file = Some fs' ∧
                   mtime_ fs' = (-1)%Z ∧ path_ fs' = path_ fs ∧
                   node_ fs' = node_ fs ∧ node_ fs = Some n ∧
                   dirty' !! n = Some false) ∧
    (∀ file, (∀ key, paths_ c !! key ≠ Some file) → heap c' !! file = heap c !! file) ∧
    (∀ n, (∀ key file fs, paths_ c !! key = Some file → heap c !! file = Some fs →
                          node_ fs ≠ Some n) →
          dirty' !! n = dirty !! n).
Proof.
  intros Hall.
  destruct (invalidate_entries_ok (map_to_list (paths_ c)) (heap c) dirty)
    as (heap' & Hrun & Hlook).
  { apply entries_have_nodes. intros key file Hkey.
    destruct (Hall _ _ Hkey) as (fs & n & Hfs & Hn). exists n.
    unfold file_node. by rewrite Hfs. }
  eexists _, _. split; [unfold Invalidate; rewrite Hrun; reflexivity |].
  split; [done |]. simpl. split; [| split].
  - intros key file Hkey. destruct (Hall _ _ Hkey) as (fs & n & Hfs & Hn).
    exists fs, (reset_mtime fs), n. split; [done |]. split.
    { rewrite Hlook, Hfs. rewrite decide_True; [done |].
      apply list_elem_of_fmap. exists (key, file). split; [done |].
      by apply elem_of_map_to_list. }
    do 4 (split; [done |]).
    rewrite clear_flags_lookup, decide_True; [done |].
    apply list_elem_of_omap. exists (key, file). split; [by apply elem_of_map_to_list |].
    simpl. by rewrite Hfs.
  - intros file Hnot. rewrite Hlook, decide_False; [apply option_fmap_id |].
    intros Hin. apply list_elem_of_fmap in Hin as ([key f] & -> & Hin).
    apply elem_of_map_to_list in Hin. by destruct (Hnot key).
  - intros n Hn. rewrite clear_flags_lookup, decide_False; [done |].
    intros Hin. apply list_elem_of_omap in Hin as ([key file] & Hin & Hnode).
    apply elem_of_map_to_list in Hin. simpl in Hnode.
    destruct (heap c !! file) as [fs |] eqn:Hfs; [| done]. simpl in Hnode.
    by destruct (Hn key file fs).
Qed.

(** X18: [Invalidate] needs a node behind every cached file.  If some
    cached [FileStat] has a null [node_], the statement
    [node_->dirty_ = false] dereferences a null pointer. *)
Theorem Invalidate_null_node (c : StatCache) (dirty : gmap nat bool) :
  (∃ key file, paths_ c !! key = Some file ∧ file_node c file = None) →
  Invalidate c dirty = NullDeref.
Proof.
  intros (key & file & Hkey & Hnone). unfold Invalidate.
  rewrite invalidate_entries_fault; [done |].
  exists (key, file). split; [by apply elem_of_map_to_list | done].
Qed.

Lemma Invalidate_ok_nodes c dirty r :
  Invalidate c dirty = Ok r →
  ∀ key file, paths_ c !! key = Some file → is_Some (file_node c file).
Proof.
  intros Hrun key file Hkey.
  destruct (file_node c file) as [n |] eqn:Hnode; [eauto |].
  unfold Invalidate in Hrun. rewrite invalidate_entries_fault in Hrun; [done |].
  exists (key, file). split; [by apply elem_of_map_to_list | done].
Qed.

(** X19: [Invalidate] is idempotent and invisible to the lookups.  After a
    call that returned, a second call changes nothing, [SpellcheckFile]
    answers every query as before, and [GetFile] returns the same pointer
    for every cached path (every path whose C string [key] is in the
    table), whatever the constructor. *)
Theorem Invalidate_idempotent (c c' : StatCache) (dirty dirty' : gmap nat bool) :
  Invalidate c dirty = Ok (c', dirty') →
  Invalidate c' dirty' = Ok (c', dirty') ∧
  (∀ ED query, SpellcheckFile ED c' query = SpellcheckFile ED c query) ∧
  (∀ new_FileStat path key,
     is_c_string_of key path → is_Some (paths_ c !! key) →
     (GetFile new_FileStat c' path).1 = (GetFile new_FileStat c path).1).
Proof.
  intros Hrun. pose proof (Invalidate_ok_nodes _ _ _ Hrun) as Hall.
  destruct (invalidate_entries_ok (map_to_list (paths_ c)) (heap c) dirty)
    as (heap' & Hrun1 & Hlook); [by apply entries_have_nodes |].
  unfold Invalidate in Hrun. rewrite Hrun1 in Hrun. simpl in Hrun.
  injection Hrun as <- <-.
  assert (Hnode : ∀ f, heap' !! f ≫= node_ = heap c !! f ≫= node_).
  { intros f. rewrite Hlook. destruct (heap c !! f) as [fs |]; [| done].
    by destruct (decide _). }
  set (c' := {| heap := heap'; paths_ := paths_ c |}).
  assert (Hfile : ∀ f, file_node c' f = file_node c f) by exact Hnode.
  split; [| split].
  - destruct (invalidate_entries_ok (map_to_list (paths_ c)) heap'
                (foldl (λ d n, <[n := false]> d) dirty
                   (omap (λ i : string * nat, heap c !! i.2 ≫= node_)
                      (map_to_list (paths_ c)))))
      as (heap'' & Hrun2 & Hlook2).
    { intros i Hi. rewrite Hnode. by apply entries_have_nodes. }
    unfold Invalidate. simpl. rewrite Hrun2. simpl. f_equal. f_equal.
    + unfold c'. f_equal. apply list_eq. intros f. rewrite Hlook2, Hlook.
      destruct (heap c !! f) as [fs |]; [| done]. simpl.
      by destruct (decide _).
    + apply map_eq. intros n. rewrite !clear_flags_lookup.
      assert (omap (λ i : string * nat, heap' !! i.2 ≫= node_) (map_to_list (paths_ c)) =
              omap (λ i : string * nat, heap c !! i.2 ≫= node_) (map_to_list (paths_ c)))
        as -> by (apply list_omap_ext, Forall_Forall2_diag, Forall_forall;
                  intros i _; apply Hnode).
      by destruct (decide _).
  - intros ED query. unfold SpellcheckFile. simpl.
    generalize (map_to_list (paths_ c)). intros l.
    generalize ((kMaxValidEditDistance + 1)%Z, @None nat). intros acc. f_equal.
    revert acc. induction l as [| i l IH]; intros acc; [done |]. simpl.
    rewrite IH. f_equal. unfold spellcheck_step. by rewrite Hfile.
  - intros new_FileStat path key <-%c_str_unique [file Hp].
    unfold GetFile. simpl. by rewrite Hp.
Qed.

End invalidate_facts.

(** ** The further properties at concrete inputs *)

Section further_instances.
Import Scenario.

Lemma PathExistsBetween_memo_hit_gap_graph :
  ∃ b m', PathExistsBetween gap_graph 2 edge_A edge_B ∅ = Ok (b, m') ∧
          ∀ fuel', PathExistsBetween gap_graph (S fuel') edge_A edge_B m' = Ok (b, m').
Proof.
  eexists _, _. split; [vm_compute; reflexivity |].
  apply (PathExistsBetween_memo_hit gap_graph 2 edge_A edge_B ∅ _ _
           (memo_ok_empty gap_graph)).
  vm_compute; reflexivity.
Defined.

Lemma PathExistsBetween_keeps_answers_gap_graph :
  ∃ b m', PathExistsBetween gap_graph 2 edge_A edge_B one_answer_memo = Ok (b, m') ∧
          ∃ inner', m' !! 1 = Some inner' ∧ inner' !! 2 = Some false.
Proof.
  eexists _, _. split; [vm_compute; reflexivity |].
  apply (PathExistsBetween_keeps_answers gap_graph 2 edge_A edge_B
           one_answer_memo _ _ ltac:(vm_compute; reflexivity)
           1 2 {[ 2 := false ]} false);
    vm_compute; reflexivity.
Defined.

Lemma own_output_paths :
  ∀ d', d' ∈ [c_out] → path gap_graph d' ≠ "build.ninja"%string.
Proof. intros d' Hd. apply list_elem_of_singleton in Hd as ->. done. Qed.

Lemma ProcessNodeDeps_reports_own_edge_gap_graph :
  ∃ N, ∀ fuel, N ≤ fuel →
    ∃ s', ProcessNodeDeps gap_graph fuel c_out [c_out] (new_scanner ∅) = Ok s' ∧
          OnMissingDep c_out (path gap_graph c_out) (rule gap_graph edge_C)
            ∈ delegate_calls s' ∧
          c_out ∈ nodes_missing_deps_ s'.
Proof.
  exact (ProcessNodeDeps_reports_own_edge gap_graph c_out edge_C [c_out] c_out
           (new_scanner ∅) gap_graph_acyclic (memo_ok_empty gap_graph) eq_refl
           own_output_paths ltac:(left) eq_refl).
Defined.

Lemma source_deps_have_no_edge : ∀ d, d ∈ [c_c] → in_edge gap_graph d = None.
Proof. intros d Hd. apply list_elem_of_singleton in Hd as ->. done. Qed.

Lemma ProcessNodeDeps_source_only_gap_graph :
  ProcessNodeDeps gap_graph 0 c_out [c_c] (new_scanner ∅) = Ok (new_scanner ∅).
Proof.
  exact (ProcessNodeDeps_source_only gap_graph 0 c_out [c_c] (new_scanner ∅)
           source_deps_have_no_edge).
Defined.

Lemma header_is_covered :
  ∀ d e, d ∈ [a_h] → in_edge gap_graph d = Some e → reachable gap_graph e edge_B.
Proof.
  intros d e Hd He. apply list_elem_of_singleton in Hd as ->.
  injection He as <-. apply (reachable_direct gap_graph 0 edge_B a_h); [left | done].
Qed.

Lemma ProcessNodeDeps_covered_gap_graph :
  ∃ N, ∀ fuel, N ≤ fuel →
    ∃ s', ProcessNodeDeps gap_graph fuel b_o [a_h] (new_scanner ∅) = Ok s' ∧
          findings s' = findings (new_scanner ∅).
Proof.
  exact (ProcessNodeDeps_covered gap_graph b_o edge_B [a_h] (new_scanner ∅)
           gap_graph_acyclic (memo_ok_empty gap_graph) eq_refl header_is_covered).
Defined.

Lemma object_paths : ∀ d, d ∈ [b_o] → path gap_graph d ≠ "build.ninja"%string.
Proof. intros d Hd. apply list_elem_of_singleton in Hd as ->. done. Qed.

Lemma ProcessNodeDeps_null_edge_gap_graph :
  ProcessNodeDeps gap_graph 3 c_c [b_o] (new_scanner ∅) = NullDeref.
Proof.
  apply (ProcessNodeDeps_null_edge gap_graph 3 c_c [b_o] (new_scanner ∅));
    [reflexivity | exact object_paths |].
  exists b_o. split; [left | by eexists].
Defined.

Lemma scan_roots_findings_grow_gap_graph :
  ∃ s', scan_roots gap_graph 2 [Some c_out] (new_scanner ∅) = Ok s' ∧
        findings_grow (new_scanner ∅) s'.
Proof.
  eexists. split; [vm_compute; reflexivity |].
  apply (scan_roots_findings_grow gap_graph 2 [Some c_out]). vm_compute; reflexivity.
Defined.

Lemma scan_roots_aggregates_match_gap_graph :
  ∃ s', scan_roots gap_graph 2 [Some c_out] (new_scanner ∅) = Ok s' ∧
        aggregates_match gap_graph s' ∧
        (HadMissingDeps s' = true ↔ delegate_calls s' ≠ []).
Proof.
  eexists. split; [vm_compute; reflexivity |].
  apply (scan_roots_aggregates_match gap_graph 2 [Some c_out] (new_scanner ∅));
    [apply new_scanner_aggregates_match | vm_compute; reflexivity].
Defined.

Lemma PrintStats_clean_iff_no_call_gap_graph :
  ∃ s', scan_roots gap_graph 2 [Some b_o] (new_scanner ∅) = Ok s' ∧
        (delegate_calls s' = [] ↔
         PrintStats s' =
           ("Processed " +:+ pretty (size (seen_ s')) +:+ " nodes." +:+ endl +:+
            "No missing dependencies on generated files found." +:+ endl)%string).
Proof.
  eexists. split; [vm_compute; reflexivity |].
  apply (PrintStats_clean_iff_no_call gap_graph 2 [Some b_o] (new_scanner ∅));
    [apply new_scanner_aggregates_match | vm_compute; reflexivity].
Defined.



Lemma scan_roots_classifies_each_once_gap_graph :
  ∃ s', scan_roots gap_graph 3 [Some b_o; Some c_out] (new_scanner ∅) = Ok s' ∧
        classified s' ≡ₚ elements (seen_ s') ∧
        length (classified s') = size (seen_ s').
Proof.
  eexists. split; [vm_compute; reflexivity |].
  apply (scan_roots_classifies_each_once gap_graph 3 [Some b_o; Some c_out]
           (new_scanner ∅));
    [apply new_scanner_visit_closed | apply new_scanner_classified_once
    | vm_compute; reflexivity].
Defined.

Lemma ProcessNodeDeps_order_irrelevant_shared_rule :
  ∃ N, ∀ fuel, N ≤ fuel →
    ∃ s1 s2,
      ProcessNodeDeps shared_rule_graph fuel 2 [0; 1] (new_scanner shared_rule_log) = Ok s1 ∧
      ProcessNodeDeps shared_rule_graph fuel 2 [1; 0] (new_scanner shared_rule_log) = Ok s2 ∧
      delegate_calls s1 ≡ₚ delegate_calls s2 ∧
      nodes_missing_deps_ s1 = nodes_missing_deps_ s2 ∧
      generated_nodes_ s1 = generated_nodes_ s2 ∧
      generator_rules_ s1 = generator_rules_ s2 ∧
      missing_dep_path_count_ s1 = missing_dep_path_count_ s2.
Proof.
  exact (ProcessNodeDeps_order_irrelevant shared_rule_graph 2 2 [0; 1] [1; 0]
           (new_scanner shared_rule_log) shared_rule_graph_acyclic
           (memo_ok_empty shared_rule_graph) eq_refl (perm_swap 1 0 [])).
Defined.

Lemma GetFile_well_formed_one_file :
  cache_wf (GetFile FileStat_with_path
              (cache_of FileStat_with_path ["main.cc"%string]) "main.h").2 ∧
  (∃ fs, heap (GetFile FileStat_with_path
                 (cache_of FileStat_with_path ["main.cc"%string]) "main.h").2
           !! (GetFile FileStat_with_path
                 (cache_of FileStat_with_path ["main.cc"%string]) "main.h").1 = Some fs ∧
         (paths_ (cache_of FileStat_with_path ["main.cc"%string]) !! "main.h"%string = None →
          fs = FileStat_with_path "main.h") ∧
         (is_Some (paths_ (cache_of FileStat_with_path ["main.cc"%string]) !! "main.h"%string) →
          is_c_string_of "main.h" (path_ fs))) ∧
  (∀ file fs, heap (cache_of FileStat_with_path ["main.cc"%string]) !! file = Some fs →
              heap (GetFile FileStat_with_path
                      (cache_of FileStat_with_path ["main.cc"%string]) "main.h").2
                !! file = Some fs).
Proof.
  exact (GetFile_well_formed FileStat_with_path
           (cache_of FileStat_with_path ["main.cc"%string]) "main.h" "main.h"
           (cache_of_wf FileStat_with_path ["main.cc"%string])
           (c_str_spec "main.h")).
Defined.

Lemma GetFile_distinct_paths_empty_cache :
  (GetFile FileStat_with_path empty_cache "main.cc").1 ≠
  (GetFile FileStat_with_path (GetFile FileStat_with_path empty_cache "main.cc").2 "main.h").1.
Proof.
  apply (GetFile_distinct_paths FileStat_with_path empty_cache "main.cc" "main.h"
           "main.cc" "main.h" empty_cache_wf (c_str_spec "main.cc") (c_str_spec "main.h"));
    [discriminate | exact (c_str_spec "main.cc")].
Defined.

Lemma FileStat_with_path_keeps_c_string : keeps_c_string FileStat_with_path.
Proof. by intros p k Hk. Qed.

Lemma cache_of_GetFile_only_three_requests :
  cache_wf (cache_of FileStat_with_path ["main.cc"; a_NUL_b; "a"]%string) ∧
  (∀ k, is_Some (paths_ (cache_of FileStat_with_path ["main.cc"; a_NUL_b; "a"]%string) !! k) ↔
        ∃ p, p ∈ ["main.cc"; a_NUL_b; "a"]%string ∧ is_c_string_of k p) ∧
  length (heap (cache_of FileStat_with_path ["main.cc"; a_NUL_b; "a"]%string)) =
    size (paths_ (cache_of FileStat_with_path ["main.cc"; a_NUL_b; "a"]%string)).
Proof.
  exact (cache_of_GetFile_only FileStat_with_path ["main.cc"; a_NUL_b; "a"]%string
           FileStat_with_path_keeps_c_string).
Defined.

Lemma full_cache_has_nodes :
  ∀ key file, paths_ full_cache !! key = Some file →
    ∃ fs n, heap full_cache !! file = Some fs ∧ node_ fs = Some n.
Proof.
  intros key file Hkey.
  assert (is_Some (heap full_cache !! file ≫= node_)) as [n Hn].
  { revert key file Hkey.
    apply (entries_have_nodes full_cache), Forall_forall.
    apply (bool_decide_unpack _). by vm_compute. }
  destruct (heap full_cache !! file) as [fs |]; [| done]. by exists fs, n.
Qed.

Lemma Invalidate_effect_full_cache :
  ∃ c' dirty',
    Invalidate full_cache {[ 0 := true; 1 := true; 2 := true ]} = Ok (c', dirty') ∧
    paths_ c' = paths_ full_cache ∧
    (∀ key file, paths_ full_cache !! key = Some file →
       ∃ fs fs' n, heap full_cache !! file = Some fs ∧ heap c' !! file = Some fs' ∧
                   mtime_ fs' = (-1)%Z ∧ path_ fs' = path_ fs ∧
                   node_ fs' = node_ fs ∧ node_ fs = Some n ∧
                   dirty' !! n = Some false) ∧
    (∀ file, (∀ key, paths_ full_cache !! key ≠ Some file) →
             heap c' !! file = heap full_cache !! file) ∧
    (∀ n, (∀ key file fs, paths_ full_cache !! key = Some file →
                          heap full_cache !! file = Some fs → node_ fs ≠ Some n) →
          dirty' !! n = ({[ 0 := true; 1 := true; 2 := true ]} : gmap nat bool) !! n).
Proof.
  exact (Invalidate_effect full_cache {[ 0 := true; 1 := true; 2 := true ]}
           full_cache_has_nodes).
Defined.

Lemma Invalidate_null_node_small_cache :
  Invalidate small_cache ∅ = NullDeref.
Proof.
  apply (Invalidate_null_node small_cache ∅).
  exists "main.h"%string, 1. split; vm_compute; reflexivity.
Defined.

Lemma Invalidate_idempotent_full_cache :
  ∃ c' dirty',
    Invalidate full_cache {[ 0 := true ]} = Ok (c', dirty') ∧
    Invalidate c' dirty' = Ok (c', dirty') ∧
    (∀ ED query, SpellcheckFile ED c' query = SpellcheckFile ED full_cache query) ∧
    (∀ new_FileStat path key,
       is_c_string_of key path → is_Some (paths_ full_cache !! key) →
       (GetFile new_FileStat c' path).1 = (GetFile new_FileStat full_cache path).1).
Proof.
  eexists _, _. split; [vm_compute; reflexivity |].
  apply (Invalidate_idempotent full_cache _ {[ 0 := true ]} _).
  vm_compute; reflexivity.
Defined.

End further_instances.
